(** * zero_file_share: the encrypted container and its lifecycle

    A shallow embedding of [src/zero_file_share/container.py] (class
    [SecureContainer]) and of the [init] command of
    [src/zero_file_share/__init__.py], together with the properties of the
    mount / save / unmount protocol.

    Modelling conventions.
    - A path is the list of its components below the filesystem root; the
      filesystem is a finite map from paths to nodes (regular file or
      directory).  Links, devices, permissions and timestamps are outside
      the model.
    - File contents are byte lists.  The container file is written and read
      in text mode; text is stored as its bytes and text-mode input and
      output do not translate line ends.
    - The cipher ([MilitaryCrypto]) and the archive codec ([tarfile]) are
      external libraries: they are parameters of the development.  An
      archive is the list of its regular-file members.
    - [tarfile.extractall] is called without a filter and the embedding
      gives it no filter (the specification, section 4.1, records that the
      design does not enforce one): a member is written where the
      destination joined with the member name leads.  The name is
      normalised lexically.
    - [tempfile.mkdtemp] picks a random name; the choice is a function of
      the disk, and its contract (the name did not exist) is a hypothesis.
    - The scratch file of [tempfile.NamedTemporaryFile] is created and
      deleted inside its [with] block; only the need for a temporary
      directory is kept.
    - A Python method is a function from the world (the object and the
      disk) to a result and a new world; an exception keeps the changes made
      before it was raised.  Only [Exception] subclasses are modelled.
    - Output written with [print] is not modelled, and the text of operating
      system errors is abbreviated. *)

From Stdlib Require Import Strings.String Strings.Ascii Strings.Byte.
From stdpp Require Import gmap strings list fin_maps sorting.

Local Open Scope string_scope.
Local Open Scope list_scope.

(** ** Exceptions *)

Inductive exn_class :=
  | RuntimeError
  | FileNotFoundError
  | NotADirectoryError
  | IsADirectoryError
  | FileExistsError
  | SameFileError
  | TypeError
  | OtherError (cls : string).

Record exn := Exn { exn_cls : exn_class; exn_msg : string }.

(** ** Paths *)

Abbreviation path := (list string).
Abbreviation bytes := (list byte).

(** [Path.parent] and [Path.name]. *)
Definition parent (p : path) : path := removelast p.
Definition name (p : path) : string := default "" (last p).

(** [str] of a relative and of an absolute path. *)
Definition str_rel (p : path) : string := String.concat "/" p.
Definition str_abs (p : path) : string := "/" +:+ str_rel p.

(** Joining a destination with a relative name, normalised component by
    component: [..] goes to the parent, [.] and the empty component stay. *)
Fixpoint resolve (base : path) (rel : list string) : path :=
  match rel with
  | [] => base
  | c :: rest =>
      if String.eqb c ".." then resolve (parent base) rest
      else if String.eqb c "." || String.eqb c "" then resolve base rest
      else resolve (base ++ [c]) rest
  end.

(** [Path.relative_to]: the part of [q] below [top], when [q] is there. *)
Fixpoint relative_to (top q : path) : option path :=
  match top, q with
  | [], _ => Some q
  | c :: top', d :: q' => if decide (c = d) then relative_to top' q' else None
  | _ :: _, [] => None
  end.

Definition valid_name (c : string) : Prop := c ≠ "" ∧ c ≠ "." ∧ c ≠ "..".

Global Instance valid_name_dec c : Decision (valid_name c).
Proof. unfold valid_name. apply _. Defined.

(** ** The filesystem *)

Inductive node :=
  | File (data : bytes)
  | Dir.

Abbreviation FS := (gmap (list string) node).

(** The root is a directory and is not stored in the map. *)
Definition lookup_node (fs : FS) (p : path) : option node :=
  match p with
  | [] => Some Dir
  | _ => fs !! p
  end.

Definition path_exists (fs : FS) (p : path) : bool :=
  match lookup_node fs p with Some _ => true | None => false end.

Definition is_dir (fs : FS) (p : path) : bool :=
  match lookup_node fs p with Some Dir => true | _ => false end.

(** Every stored path has valid component names and a parent directory. *)
Definition fs_wf (fs : FS) : Prop :=
  map_Forall (λ p _, p ≠ [] ∧ Forall valid_name p ∧ is_dir fs (parent p) = true) fs.

Global Instance fs_wf_dec fs : Decision (fs_wf fs).
Proof. unfold fs_wf. apply _. Defined.

(** Nothing exists at [p] or below it. *)
Definition no_tree (p : path) (fs : FS) : Prop := ∀ r, fs !! (p ++ r) = None.

(** [open(p, 'rb').read()]. *)
Definition read_bytes (p : path) (fs : FS) : exn + bytes :=
  match lookup_node fs p with
  | Some (File d) => inr d
  | Some Dir => inl (Exn IsADirectoryError ("Is a directory: " +:+ str_abs p))
  | None => inl (Exn FileNotFoundError ("No such file or directory: " +:+ str_abs p))
  end.

(** [open(p, 'wb').write(d)]: the parent must be a directory and [p] must
    not be one; an existing file is replaced. *)
Definition write_bytes (p : path) (d : bytes) (fs : FS) : exn + FS :=
  if is_dir fs (parent p) then
    match lookup_node fs p with
    | Some Dir => inl (Exn IsADirectoryError ("Is a directory: " +:+ str_abs p))
    | _ => inr (<[p := File d]> fs)
    end
  else if path_exists fs (parent p) then
    inl (Exn NotADirectoryError ("Not a directory: " +:+ str_abs p))
  else inl (Exn FileNotFoundError ("No such file or directory: " +:+ str_abs p)).

(** Text mode: [open(p, 'r').read()] and [open(p, 'w').write(t)]. *)
Definition read_text (p : path) (fs : FS) : exn + string :=
  match read_bytes p fs with
  | inr d => inr (string_of_list_byte d)
  | inl e => inl e
  end.

Definition write_text (p : path) (t : string) (fs : FS) : exn + FS :=
  write_bytes p (list_byte_of_string t) fs.

(** [os.makedirs(p, exist_ok=True)], from the root downwards: [done] is the
    part already known to be a directory. *)
Fixpoint makedirs_from (done : path) (todo : list string) (fs : FS) : exn + FS :=
  match todo with
  | [] => inr fs
  | c :: rest =>
      let q := done ++ [c] in
      match fs !! q with
      | Some (File _) => inl (Exn FileExistsError ("File exists: " +:+ str_abs q))
      | Some Dir => makedirs_from q rest fs
      | None => makedirs_from q rest (<[q := Dir]> fs)
      end
  end.

Definition makedirs (p : path) (fs : FS) : exn + FS := makedirs_from [] p fs.

(** [shutil.rmtree(p)]: [p] must be a directory; it goes with all below. *)
Definition rmtree (p : path) (fs : FS) : exn + FS :=
  match lookup_node fs p with
  | Some Dir => inr (filter (λ kv, ¬ p `prefix_of` kv.1) fs)
  | Some (File _) => inl (Exn NotADirectoryError ("Not a directory: " +:+ str_abs p))
  | None => inl (Exn FileNotFoundError ("No such file or directory: " +:+ str_abs p))
  end.

(** The regular files that [os.walk(top)] reaches, each with its path
    relative to [top] and its contents.  On a well-formed filesystem these
    are the files stored strictly below [top]. *)
Definition walk_entry (top : path) (kv : path * node) : option (path * bytes) :=
  match kv.2 with
  | File d =>
      match relative_to top kv.1 with
      | Some (c :: rel) => Some (c :: rel, d)
      | _ => None
      end
  | Dir => None
  end.

Definition walk_files (top : path) (fs : FS) : list (path * bytes) :=
  omap (walk_entry top) (map_to_list fs).

(** [shutil.copy2(src, dst)]: into [dst] when it is a directory; the source
    must be a regular file other than the destination. *)
Definition copy2 (src dst : path) (fs : FS) : exn + FS :=
  let dst' := if is_dir fs dst then dst ++ [name src] else dst in
  if decide (src = dst') then
    inl (Exn SameFileError (str_abs src +:+ " and " +:+ str_abs dst' +:+ " are the same file"))
  else
    match read_bytes src fs with
    | inl e => inl e
    | inr d => write_bytes dst' d fs
    end.

(** [sorted] on strings. *)
Definition str_le (a b : string) : Prop := String.leb a b = true.

Global Instance str_le_dec a b : Decision (str_le a b).
Proof. unfold str_le. apply _. Defined.

Definition sorted (l : list string) : list string := merge_sort str_le l.

(** ** The object, the world and the method monad *)

Record SecureContainer := {
  container_path : path;
  temp_dir : option path;
  is_mounted : bool
}.

(** [SecureContainer.__init__]. *)
Definition new_SecureContainer (container_path : path) : SecureContainer :=
  {| container_path := container_path; temp_dir := None; is_mounted := false |}.

Record World := { self : SecureContainer; disk : FS }.

Definition M (A : Type) : Type := World → (exn + A) * World.

Global Instance M_ret : MRet M := λ A a w, (inr a, w).

Global Instance M_bind : MBind M := λ A B f m w,
  match m w with
  | (inr a, w') => f a w'
  | (inl e, w') => (inl e, w')
  end.

Definition raise {A} (e : exn) : M A := λ w, (inl e, w).

Definition get_self : M SecureContainer := λ w, (inr (self w), w).
Definition get_disk : M FS := λ w, (inr (disk w), w).

Definition set_temp_dir (d : option path) : M unit := λ w,
  (inr tt,
   {| self := {| container_path := container_path (self w);
                 temp_dir := d;
                 is_mounted := is_mounted (self w) |};
      disk := disk w |}).

Definition set_is_mounted (b : bool) : M unit := λ w,
  (inr tt,
   {| self := {| container_path := container_path (self w);
                 temp_dir := temp_dir (self w);
                 is_mounted := b |};
      disk := disk w |}).

(** A call that does not touch the world. *)
Definition lift {A} (r : exn + A) : M A := λ w, (r, w).

(** A disk operation; a failing one leaves the disk as it was. *)
Definition fs_read {A} (f : FS → exn + A) : M A := λ w, (f (disk w), w).

Definition fs_write (f : FS → exn + FS) : M unit := λ w,
  match f (disk w) with
  | inr fs' => (inr tt, {| self := self w; disk := fs' |})
  | inl e => (inl e, w)
  end.

(** [try: body except Exception as e: handler e]. *)
Definition try_except {A} (body : M A) (handler : exn → M A) : M A := λ w,
  match body w with
  | (inl e, w') => handler e w'
  | (inr a, w') => (inr a, w')
  end.

(** [try: body finally: final]: an exception of [final] replaces the
    outcome of [body]. *)
Definition try_finally {A} (body : M A) (final : M unit) : M A := λ w,
  match body w with
  | (r, w') =>
      match final w' with
      | (inl e, w'') => (inl e, w'')
      | (inr _, w'') => (r, w'')
      end
  end.

(** One member of [extractall]: the directories above the target are made
    when they are missing, then the file is written. *)
Definition extract_member (dest : path) (m : path * bytes) : M unit :=
  let targetpath := resolve dest m.1 in
  let upperdirs := parent targetpath in
  fs ← get_disk;
  (if path_exists fs upperdirs then mret tt else fs_write (makedirs upperdirs));;
  fs_write (write_bytes targetpath m.2).

Fixpoint extractall (dest : path) (members : list (path * bytes)) : M unit :=
  match members with
  | [] => mret tt
  | m :: rest => extract_member dest m;; extractall dest rest
  end.

(** ** SecureContainer *)

(** The platform: [tempfile.gettempdir()] and the name that [mkdtemp] picks
    after the prefix. *)
Class TempFiles := {
  tmpdir : path;
  mktemp_name : FS → string
}.

(** [MilitaryCrypto.encrypt] and [MilitaryCrypto.decrypt]. *)
Class Cipher := {
  encrypt : bytes → string → exn + string;
  decrypt : string → string → exn + bytes
}.

(** [tarfile]: writing the members of an archive and reading them back. *)
Class Archive := {
  tar_write : list (path * bytes) → bytes;
  tar_read : bytes → exn + list (path * bytes)
}.

Section SecureContainer.

Context {tempfile : TempFiles} {crypto : Cipher} {tarfile : Archive}.

Definition mkdtemp_path (pre : string) (fs : FS) : path :=
  tmpdir ++ [pre +:+ mktemp_name fs].

(** [tempfile.mkdtemp(prefix=...)]. *)
Definition mkdtemp (pre : string) : M path :=
  fs ← get_disk;
  if is_dir fs tmpdir then
    fs_write (λ fs, inr (<[mkdtemp_path pre fs := Dir]> fs));;
    mret (mkdtemp_path pre fs)
  else raise (Exn FileNotFoundError ("No usable temporary directory found: " +:+ str_abs tmpdir)).

(** [with tempfile.NamedTemporaryFile() as temp_tar: body]. *)
Definition NamedTemporaryFile {A} (body : M A) : M A :=
  fs ← get_disk;
  if is_dir fs tmpdir then body
  else raise (Exn FileNotFoundError ("No usable temporary directory found: " +:+ str_abs tmpdir)).

Definition create_empty (key : string) : M unit :=
  NamedTemporaryFile
    (let tar_data := tar_write [] in
     encrypted_data ← lift (encrypt tar_data key);
     s ← get_self;
     fs_write (write_text (container_path s) encrypted_data)).

(** The [try] block and the [except] block of [mount]. *)
Definition mount_try (s : SecureContainer) (key : string) : M path :=
  encrypted_data ← fs_read (read_text (container_path s));
  tar_data ← lift (decrypt encrypted_data key);
  d ← mkdtemp "zero_file_share_";
  set_temp_dir (Some d);;
  NamedTemporaryFile
    (tar ← lift (tar_read tar_data);
     extractall d tar);;
  set_is_mounted true;;
  mret d.

Definition mount_except (e : exn) : M path :=
  s ← get_self;
  fs ← get_disk;
  match temp_dir s with
  | Some d => if path_exists fs d then fs_write (rmtree d) else mret tt
  | None => mret tt
  end;;
  raise (Exn RuntimeError ("Failed to mount container: " +:+ exn_msg e)).

Definition mount (key : string) : M path :=
  s ← get_self;
  if is_mounted s then raise (Exn RuntimeError "Container is already mounted")
  else try_except (mount_try s key) mount_except.

Definition save (key : string) : M unit :=
  s ← get_self;
  if negb (is_mounted s) then raise (Exn RuntimeError "Container is not mounted")
  else
    NamedTemporaryFile
      (tar ← match temp_dir s with
             | Some d => fs ← get_disk; mret (walk_files d fs)
             | None => raise (Exn TypeError "expected str, bytes or os.PathLike object, not NoneType")
             end;
       let tar_data := tar_write tar in
       encrypted_data ← lift (encrypt tar_data key);
       fs_write (write_text (container_path s) encrypted_data)).

Definition unmount : M unit :=
  s ← get_self;
  if negb (is_mounted s) then mret tt
  else
    fs ← get_disk;
    match temp_dir s with
    | Some d => if path_exists fs d then fs_write (rmtree d) else mret tt
    | None => mret tt
    end;;
    set_temp_dir None;;
    set_is_mounted false.

(** The [try] block of [add_file]. *)
Definition add_file_try (file_path : path) (key : string)
    (target_path : option (list string)) : M unit :=
  s ← get_self;
  match temp_dir s with
  | None => raise (Exn TypeError "unsupported operand type(s) for /: 'NoneType' and 'str'")
  | Some d =>
      let dest_path :=
        match target_path with
        | Some (c :: t) => resolve d (c :: t)
        | _ => resolve d [name file_path]
        end in
      fs_write (makedirs (parent dest_path));;
      fs_write (copy2 file_path dest_path);;
      save key
  end.

Definition add_file (file_path : path) (key : string)
    (target_path : option (list string)) : M unit :=
  fs ← get_disk;
  if negb (path_exists fs file_path) then
    raise (Exn FileNotFoundError ("File not found: " +:+ str_abs file_path))
  else
    s ← get_self;
    let was_mounted := is_mounted s in
    (if negb was_mounted then mount key;; mret tt else mret tt);;
    try_finally
      (add_file_try file_path key target_path)
      (if negb was_mounted then unmount else mret tt).

Definition list_files : M (list string) :=
  s ← get_self;
  if negb (is_mounted s) then raise (Exn RuntimeError "Container is not mounted")
  else
    match temp_dir s with
    | Some d => fs ← get_disk; mret (sorted ((λ f, str_rel f.1) <$> walk_files d fs))
    | None => raise (Exn TypeError "expected str, bytes or os.PathLike object, not NoneType")
    end.

Definition get_mount_path : M (option path) :=
  s ← get_self;
  mret (if is_mounted s then temp_dir s else None).





(** The end-to-end scenario: a new container is mounted and listed, a file
    is put into the tree, the tree is saved and unmounted, and the container
    is mounted and listed again; the result is the two listings and what
    is then read from the file. *)
Definition end_to_end (key file : string) (content : bytes)
    : M (list string * list string * bytes) :=
  create_empty key;;
  d ← mount key;
  listed ← list_files;
  fs_write (write_bytes (d ++ [file]) content);;
  save key;;
  unmount;;
  d' ← mount key;
  listed' ← list_files;
  content' ← fs_read (read_bytes (d' ++ [file]));
  mret (listed, listed', content').

(** ** The [init] command *)

Inductive outcome :=
  | Returned
  | SysExit (code : nat).

(** [init_container]: [key] and [confirm_key] are what the two password
    prompts return. *)
Definition init_container (args_container : path) (key confirm_key : string)
    (fs : FS) : outcome * FS :=
  if path_exists fs args_container then (SysExit 1, fs)
  else if negb (String.eqb key confirm_key) then (SysExit 1, fs)
  else
    match create_empty key {| self := new_SecureContainer args_container; disk := fs |} with
    | (inr _, w) => (Returned, disk w)
    | (inl _, w) => (SysExit 1, disk w)
    end.

(** ** What a caller does with one object

    The methods, and the edits of a mounted working tree: a file is put at
    a path below its root, or what lies at such a path is removed. *)

Inductive call :=
  | CreateEmpty (key : string)
  | Mount (key : string)
  | Save (key : string)
  | Unmount
  | AddFile (file_path : path) (key : string) (target_path : option (list string))
  | ListFiles
  | PutFile (rel : path) (data : bytes)
  | Remove (rel : path).

Definition remove_below (d rel : path) (fs : FS) : exn + FS :=
  match rel with
  | [] => inr fs
  | _ => inr (filter (λ kv, ¬ (d ++ rel) `prefix_of` kv.1) fs)
  end.

Definition edit_tree (f : path → FS → exn + FS) : M unit :=
  s ← get_self;
  match temp_dir s with
  | Some d => if is_mounted s then fs_write (f d) else mret tt
  | None => mret tt
  end.

Definition run_call (c : call) (w : World) : World :=
  match c with
  | CreateEmpty key => (create_empty key w).2
  | Mount key => (mount key w).2
  | Save key => (save key w).2
  | Unmount => (unmount w).2
  | AddFile file_path key target_path => (add_file file_path key target_path w).2
  | ListFiles => (list_files w).2
  | PutFile rel data => (edit_tree (λ d, write_bytes (d ++ rel) data) w).2
  | Remove rel => (edit_tree (λ d, remove_below d rel) w).2
  end.

Definition run_calls (calls : list call) (w : World) : World :=
  foldl (λ w c, run_call c w) w calls.

(** The archive that [mount] finds in the container: the members read from
    the decrypted text of the file, when every step returns. *)
Definition stored_archive (cp : path) (key : string) (fs : FS) : option (list (path * bytes)) :=
  match read_text cp fs with
  | inr text =>
      match decrypt text key with
      | inr data =>
          match tar_read data with
          | inr members => Some members
          | inl _ => None
          end
      | inl _ => None
      end
  | inl _ => None
  end.

End SecureContainer.

(** ** The commands of [__init__.py]

    What the user types is an input of a command: the key that
    [get_password] returns, and the lines that [input] returns in the
    command loop, where the end of the input is [EOFError].  The editor that
    [subprocess.call] starts is a parameter. *)

Class Editor := { run_editor : path → FS → exn + FS }.


(** [str.split()]: the words between runs of white space. *)
Definition is_space (c : ascii) : bool :=
  match c with
  | " " | "009" | "010" | "011" | "012" | "013" | "028" | "029" | "030" | "031" => true
  | _ => false
  end%char.

Fixpoint split_words (word : string) (s : string) : list string :=
  match s with
  | EmptyString => if String.eqb word "" then [] else [word]
  | String c s' =>
      if is_space c then
        if String.eqb word "" then split_words "" s'
        else word :: split_words "" s'
      else split_words (word +:+ String c "") s'
  end.

Definition split (s : string) : list string := split_words "" s.



Module Cli.
Section Commands.

Context {tempfile : TempFiles} {crypto : Cipher} {tarfile : Archive} {editor : Editor}.

(** [add_file(args)]: [key] is what the password prompt returns. *)
Definition add_file (args_container args_file : path)
    (args_target : option (list string)) (key : string) (fs : FS) : outcome * FS :=
  if negb (path_exists fs args_container) then (SysExit 1, fs)
  else if negb (path_exists fs args_file) then (SysExit 1, fs)
  else
    match add_file args_file key args_target
            {| self := new_SecureContainer args_container; disk := fs |} with
    | (inr _, w) => (Returned, disk w)
    | (inl _, w) => (SysExit 1, disk w)
    end.



End Commands.
End Cli.


(** ** Vocabulary of the properties *)

(** Directories stay, and nothing changes outside a subtree. *)
Definition dirs_kept (fs fs' : FS) : Prop := ∀ q, fs !! q = Some Dir → fs' !! q = Some Dir.

Definition same_outside (p : path) (fs fs' : FS) : Prop :=
  ∀ q, ¬ p `prefix_of` q → fs' !! q = fs !! q.

(** Every directory above [p], and [p] itself, exists. *)
Definition above_exist (p : path) (fs : FS) : Prop :=
  ∀ q, q ≠ [] → q `prefix_of` p → fs !! q = Some Dir.

(** The object is the same and no directory has gone. *)
Definition keeps (w w' : World) : Prop :=
  self w' = self w ∧ dirs_kept (disk w) (disk w').

(** The relative path at which [add_file] puts the file. *)
Definition add_file_dest (file_path : path) (target_path : option (list string)) : path :=
  match target_path with
  | Some (c :: t) => c :: t
  | _ => [name file_path]
  end.


(** A mounted object has a working tree that is a directory on the disk. *)
Definition mounted_on_dir (w : World) : Prop :=
  is_mounted (self w) = true → ∃ d, temp_dir (self w) = Some d ∧ disk w !! d = Some Dir.

(** No member name is the start of another, and a name has one content. *)
Definition consistent (members : list (path * bytes)) : Prop :=
  ∀ m m', m ∈ members → m' ∈ members → m.1 `prefix_of` m'.1 → m = m'.

(** The tree below [d] is the unpacked [members]: every regular file is a
    member, every directory lies above a member, every member is there. *)
Definition unpacked (d : path) (fs : FS) (members : list (path * bytes)) : Prop :=
  fs !! d = Some Dir
  ∧ above_exist d fs
  ∧ (∀ rel n, rel ≠ [] → fs !! (d ++ rel) = Some n →
       match n with
       | File data => (rel, data) ∈ members
       | Dir => ∃ m, m ∈ members ∧ rel `prefix_of` m.1 ∧ rel ≠ m.1
       end)
  ∧ (∀ m, m ∈ members → fs !! (d ++ m.1) = Some (File m.2)).

(** ** A sample platform

    One platform on which the methods can be run: the temporary directory
    is [/tmp], [mkdtemp] picks a name longer than every name on the disk,
    the cipher puts the key in front of the text, and an archive is the
    binary numeral that counts its member list. *)

Fixpoint xs (n : nat) : string :=
  match n with
  | 0 => ""
  | S n => String "x" (xs n)
  end.

Definition longest_name (fs : FS) : nat :=
  max_list (String.length <$> concat (map_to_list fs).*1).

Definition sample_tempfiles : TempFiles :=
  {| tmpdir := ["tmp"]; mktemp_name := λ fs, xs (S (longest_name fs)) |}.

Fixpoint strip_key (key text : string) : option string :=
  match key with
  | EmptyString => Some text
  | String a key' =>
      match text with
      | String b text' => if Ascii.eqb a b then strip_key key' text' else None
      | EmptyString => None
      end
  end.

Definition sample_cipher : Cipher :=
  {| encrypt := λ data key, inr (key +:+ string_of_list_byte data);
     decrypt := λ text key,
       match strip_key key text with
       | Some t => inr (list_byte_of_string t)
       | None => inl (Exn (OtherError "AuthenticationError") "wrong key")
       end |}.

Fixpoint bits_of_pos (n : positive) : bytes :=
  match n with
  | xH => []
  | xO n => x00 :: bits_of_pos n
  | xI n => x01 :: bits_of_pos n
  end.

Fixpoint pos_of_bits (b : bytes) : option positive :=
  match b with
  | [] => Some xH
  | x00 :: b => xO <$> pos_of_bits b
  | x01 :: b => xI <$> pos_of_bits b
  | _ => None
  end.

Definition sample_archive : Archive :=
  {| tar_write := λ members,
       bits_of_pos (encode ((λ m, (m.1, string_of_list_byte m.2)) <$> members));
     tar_read := λ data,
       match pos_of_bits data ≫= decode with
       | Some l => inr ((λ m : path * string, (m.1, list_byte_of_string m.2)) <$> l)
       | None => inl (Exn (OtherError "ReadError") "file could not be opened successfully")
       end |}.

(** An editor that appends a mark to a regular file below [/tmp] and is
    refused elsewhere, and what a user types at the command loop. *)
Definition sample_editor : Editor :=
  {| run_editor := λ p fs,
       match fs !! p with
       | Some (File data) =>
           if decide (["tmp"] `prefix_of` p)
           then inr (<[p := File (data ++ list_byte_of_string "!")]> fs)
           else inl (Exn (OtherError "PermissionError") "Permission denied")
       | _ => inr fs
       end |}.


(** Sample disks and objects. *)

Definition vault : path := ["home"; "c.vault"].

Definition sample_disk : FS :=
  <[["home"; "notes.txt"] := File (list_byte_of_string "hello")]>
  (<[["home"] := Dir]> (<[["tmp"] := Dir]> ∅)).

(** A container of the sample platform that holds [members], sealed with
    [key]. *)
Definition sealed (members : list (path * bytes)) (key : string) : bytes :=
  list_byte_of_string (key +:+ string_of_list_byte (@tar_write sample_archive members)).

Definition disk_with (members : list (path * bytes)) : FS :=
  <[vault := File (sealed members "pw")]> sample_disk.

(** Archives: one that stays inside, one whose second member lies below a
    regular file, one that leaves the working tree, one that leads to the
    container itself. *)
Definition inside_members : list (path * bytes) :=
  [(["docs"; "a.txt"], list_byte_of_string "A")].





(** A mounted tree with a file and an empty directory. *)
Definition tree_disk : FS :=
  <[["tmp"; "wt"; "empty"] := Dir]>
  (<[["tmp"; "wt"; "a.txt"] := File (list_byte_of_string "A")]>
  (<[["tmp"; "wt"] := Dir]> (disk_with []))).

Definition fresh_world (fs : FS) : World :=
  {| self := new_SecureContainer vault; disk := fs |}.

Definition mounted_world (d : path) (fs : FS) : World :=
  {| self := {| container_path := vault; temp_dir := Some d; is_mounted := true |};
     disk := fs |}.

(** * Properties *)

(** ** Paths *)

Lemma relative_to_Some top q r : relative_to top q = Some r ↔ q = top ++ r.
Proof.
  revert q. induction top as [|c top IH]; intros q; simpl.
  - split; [by intros [= ->] | by intros ->].
  - destruct q as [|d q]; [split; [done | by intros [=]] |].
    case_decide as Hcd.
    + subst d. rewrite IH. split; [by intros -> | by intros [= ->]].
    + split; [done | intros [= -> ?]; done].
Qed.

Lemma relative_to_app top r : relative_to top (top ++ r) = Some r.
Proof. by apply relative_to_Some. Qed.

Lemma valid_name_eqb c :
  valid_name c →
  String.eqb c ".." = false ∧ String.eqb c "." = false ∧ String.eqb c "" = false.
Proof.
  intros (H1 & H2 & H3). repeat split; by apply String.eqb_neq.
Qed.

Lemma resolve_valid base rel : Forall valid_name rel → resolve base rel = base ++ rel.
Proof.
  intros Hv. revert base. induction Hv as [|c rel Hc _ IH]; intros base; simpl.
  - by rewrite app_nil_r.
  - destruct (valid_name_eqb c Hc) as (-> & -> & ->). simpl.
    by rewrite IH, <- app_assoc.
Qed.

Lemma parent_snoc p c : parent (p ++ [c]) = p.
Proof. apply removelast_last. Qed.

Lemma parent_app p r : r ≠ [] → parent (p ++ r) = p ++ parent r.
Proof. intros Hr. by apply removelast_app. Qed.

Lemma parent_prefix p : parent p `prefix_of` p.
Proof.
  destruct (decide (p = [])) as [->|Hne]; [done|].
  exists [default "" (last p)]. unfold parent.
  destruct (exists_last Hne) as (q & c & ->).
  by rewrite removelast_last, last_snoc.
Qed.

Lemma snoc_cases (r : path) : r = [] ∨ ∃ r' c, r = r' ++ [c].
Proof.
  destruct (decide (r = [])) as [->|Hne]; [by left | right].
  destruct (exists_last Hne) as (q & c & ->). eauto.
Qed.

(** ** The filesystem *)

Lemma is_dir_lookup fs p : p ≠ [] → is_dir fs p = true ↔ fs !! p = Some Dir.
Proof.
  intros Hp. unfold is_dir, lookup_node. destruct p; [done|].
  destruct (fs !! _) as [[]|]; split; congruence.
Qed.

Lemma is_dir_exists fs p : is_dir fs p = true → path_exists fs p = true.
Proof. unfold is_dir, path_exists. by destruct (lookup_node fs p) as [[]|]. Qed.

Lemma path_exists_lookup fs p : p ≠ [] → path_exists fs p = true ↔ is_Some (fs !! p).
Proof.
  intros Hp. unfold path_exists, lookup_node. destruct p; [done|].
  destruct (fs !! _); split; try done; by intros [].
Qed.

Lemma fs_wf_lookup fs p n :
  fs_wf fs → fs !! p = Some n → p ≠ [] ∧ Forall valid_name p ∧ is_dir fs (parent p) = true.
Proof. intros Hwf Hp. exact (Hwf p n Hp). Qed.

Lemma fs_wf_root fs : fs_wf fs → fs !! [] = None.
Proof.
  intros Hwf. destruct (fs !! []) as [n|] eqn:E; [|done].
  by destruct (fs_wf_lookup _ _ _ Hwf E) as (? & _).
Qed.

(** All that lies above a stored path is a directory. *)
Lemma fs_wf_above fs q r :
  fs_wf fs → is_Some (fs !! (q ++ r)) → r ≠ [] → is_dir fs q = true.
Proof.
  intros Hwf. revert q. induction r as [|c r IH] using rev_ind; intros q [n Hn] Hr.
  { done. }
  rewrite app_assoc in Hn.
  destruct (fs_wf_lookup _ _ _ Hwf Hn) as (_ & _ & Hpar).
  rewrite parent_snoc in Hpar.
  destruct (decide (r = [])) as [->|Hne]; [by rewrite app_nil_r in Hpar|].
  apply IH; [|done].
  destruct (decide (q ++ r = [])) as [Hnil|Hnn].
  { apply app_eq_nil in Hnil as [_ ->]. done. }
  apply is_dir_lookup in Hpar; [|done]. by eexists.
Qed.

Lemma fs_wf_no_tree fs p : fs_wf fs → p ≠ [] → fs !! p = None → no_tree p fs.
Proof.
  intros Hwf Hp Hnone r.
  destruct (decide (r = [])) as [->|Hr]; [by rewrite app_nil_r|].
  destruct (fs !! (p ++ r)) as [n|] eqn:E; [|done].
  assert (is_dir fs p = true) as Hd by (eapply fs_wf_above; eauto).
  apply is_dir_lookup in Hd; [congruence | done].
Qed.

Lemma fs_wf_valid fs p r :
  fs_wf fs → is_Some (fs !! (p ++ r)) → Forall valid_name r.
Proof.
  intros Hwf [n Hn]. destruct (fs_wf_lookup _ _ _ Hwf Hn) as (_ & Hv & _).
  by apply Forall_app in Hv as [_ ?].
Qed.

Lemma dirs_kept_refl fs : dirs_kept fs fs.
Proof. by intros q. Qed.

Lemma dirs_kept_trans fs1 fs2 fs3 : dirs_kept fs1 fs2 → dirs_kept fs2 fs3 → dirs_kept fs1 fs3.
Proof. intros H12 H23 q Hq. by apply H23, H12. Qed.

Lemma same_outside_refl p fs : same_outside p fs fs.
Proof. by intros q. Qed.

Lemma same_outside_trans p fs1 fs2 fs3 :
  same_outside p fs1 fs2 → same_outside p fs2 fs3 → same_outside p fs1 fs3.
Proof. intros H12 H23 q Hq. by rewrite H23, H12. Qed.

Lemma dirs_kept_is_dir fs fs' q : dirs_kept fs fs' → is_dir fs q = true → is_dir fs' q = true.
Proof.
  intros Hk. destruct (decide (q = [])) as [->|Hq]; [done|].
  rewrite !is_dir_lookup by done. apply Hk.
Qed.

Lemma prefix_snoc_cases (q p : path) c :
  q `prefix_of` p ++ [c] → q `prefix_of` p ∨ q = p ++ [c].
Proof.
  intros [k Hk]. destruct (snoc_cases k) as [->|(k' & d & ->)].
  - right. by rewrite app_nil_r in Hk.
  - left. rewrite app_assoc in Hk. apply app_inj_tail in Hk as [-> _]. by exists k'.
Qed.

(** Two prefixes of one path are comparable. *)
Lemma prefix_comparable (a b t : path) :
  a `prefix_of` t → b `prefix_of` t → a `prefix_of` b ∨ b `prefix_of` a.
Proof.
  revert a b. induction t as [|c t IH] using rev_ind; intros a b Ha Hb.
  - apply prefix_nil_inv in Ha as ->. left. apply prefix_nil.
  - apply prefix_snoc_cases in Ha as [Ha| ->]; apply prefix_snoc_cases in Hb as [Hb| ->].
    + by apply IH.
    + left. by apply prefix_app_r.
    + right. by apply prefix_app_r.
    + by left.
Qed.

(** *** [write_bytes] *)

Lemma write_bytes_inr p d fs fs' :
  write_bytes p d fs = inr fs' →
  fs' = <[p := File d]> fs ∧ is_dir fs (parent p) = true ∧ fs !! p ≠ Some Dir ∧ p ≠ [].
Proof.
  unfold write_bytes. destruct (is_dir fs (parent p)) eqn:Hpar.
  - unfold lookup_node. destruct p as [|c p]; [done|].
    destruct (fs !! (c :: p)) as [[]|] eqn:E; intros [= <-]; by repeat split.
  - by destruct (path_exists fs (parent p)).
Qed.

Lemma write_bytes_ok p d fs :
  p ≠ [] → is_dir fs (parent p) = true → fs !! p ≠ Some Dir →
  write_bytes p d fs = inr (<[p := File d]> fs).
Proof.
  intros Hp Hpar Hnd. unfold write_bytes. rewrite Hpar.
  unfold lookup_node. destruct p as [|c p]; [done|].
  by destruct (fs !! (c :: p)) as [[]|].
Qed.

Lemma write_bytes_dirs_kept p d fs fs' : write_bytes p d fs = inr fs' → dirs_kept fs fs'.
Proof.
  intros (-> & _ & Hnd & _)%write_bytes_inr q Hq.
  rewrite lookup_insert_ne; [done|]. by intros ->.
Qed.

Lemma write_bytes_same_outside r p d fs fs' :
  r `prefix_of` p → write_bytes p d fs = inr fs' → same_outside r fs fs'.
Proof.
  intros Hrp (-> & _)%write_bytes_inr q Hq.
  rewrite lookup_insert_ne; [done|]. by intros ->.
Qed.

(** *** [makedirs] *)

Lemma makedirs_from_keeps done todo fs fs' q n :
  makedirs_from done todo fs = inr fs' → fs !! q = Some n → fs' !! q = Some n.
Proof.
  revert done fs. induction todo as [|c rest IH]; intros done fs; simpl.
  - by intros [= ->].
  - destruct (fs !! (done ++ [c])) as [[]|] eqn:E; [done | apply IH |].
    intros Hm Hq. eapply IH; [done|].
    rewrite lookup_insert_ne; [done|]. intros <-. congruence.
Qed.

Lemma makedirs_from_new done todo fs fs' q n :
  makedirs_from done todo fs = inr fs' → fs' !! q = Some n →
  fs !! q = Some n ∨ (n = Dir ∧ ∃ r, r ≠ [] ∧ r `prefix_of` todo ∧ q = done ++ r).
Proof.
  revert done fs. induction todo as [|c rest IH]; intros done fs; simpl.
  - intros [= ->]. by left.
  - destruct (fs !! (done ++ [c])) as [[]|] eqn:E; [done | |]; intros Hm Hq.
    + destruct (IH _ _ Hm Hq) as [?|(-> & r & Hr & Hpre & ->)]; [by left|right].
      split; [done|]. exists (c :: r). rewrite <- app_assoc.
      split_and!; [done | by apply prefix_cons |done].
    + destruct (IH _ _ Hm Hq) as [Hins|(-> & r & Hr & Hpre & ->)].
      * destruct (decide (q = done ++ [c])) as [->|Hne].
        -- rewrite lookup_insert_eq in Hins. injection Hins as <-. right.
           split; [done|]. exists [c]. split_and!; [done | | done].
           apply prefix_cons, prefix_nil.
        -- rewrite lookup_insert_ne in Hins by done. by left.
      * right. split; [done|]. exists (c :: r). rewrite <- app_assoc.
        split_and!; [done | by apply prefix_cons | done].
Qed.

Lemma makedirs_from_made done todo fs fs' r :
  makedirs_from done todo fs = inr fs' → r ≠ [] → r `prefix_of` todo →
  fs' !! (done ++ r) = Some Dir.
Proof.
  revert done fs r. induction todo as [|c rest IH]; intros done fs r; simpl.
  - intros _ Hr ->%prefix_nil_inv. done.
  - intros Hm Hr Hpre. destruct r as [|c' r]; [done|].
    assert (c' = c) as -> by (by apply prefix_cons_inv_1 in Hpre).
    apply prefix_cons_inv_2 in Hpre.
    replace (done ++ c :: r) with ((done ++ [c]) ++ r) by (by rewrite <- app_assoc).
    destruct (fs !! (done ++ [c])) as [[]|] eqn:E; [done | |].
    + destruct (decide (r = [])) as [->|Hne]; [|by eapply IH].
      rewrite app_nil_r. by eapply makedirs_from_keeps.
    + destruct (decide (r = [])) as [->|Hne]; [|by eapply IH].
      rewrite app_nil_r. eapply makedirs_from_keeps; [done|]. apply lookup_insert_eq.
Qed.

Lemma makedirs_from_ok done todo fs :
  (∀ r d, r ≠ [] → r `prefix_of` todo → fs !! (done ++ r) ≠ Some (File d)) →
  ∃ fs', makedirs_from done todo fs = inr fs'.
Proof.
  revert done fs. induction todo as [|c rest IH]; intros done fs Hnf; simpl; [by eexists|].
  assert (∀ fs1 : FS, (∀ q, q ≠ done ++ [c] → fs1 !! q = fs !! q) →
    ∀ r d, r ≠ [] → r `prefix_of` rest → fs1 !! ((done ++ [c]) ++ r) ≠ Some (File d)) as Hrec.
  { intros fs1 H1 r d Hr Hpre. rewrite H1.
    - rewrite <- app_assoc. apply Hnf; [done | by apply prefix_cons].
    - intros Heq. apply (f_equal length) in Heq. rewrite !length_app in Heq.
      destruct r; [done | simpl in Heq; lia]. }
  destruct (fs !! (done ++ [c])) as [[d|]|] eqn:E.
  - exfalso. eapply (Hnf [c]); [done | apply prefix_cons, prefix_nil | done].
  - apply IH, Hrec. done.
  - apply IH, Hrec. intros q Hq. by rewrite lookup_insert_ne.
Qed.

Lemma makedirs_dirs_kept p fs fs' : makedirs p fs = inr fs' → dirs_kept fs fs'.
Proof. intros Hm q Hq. by eapply makedirs_from_keeps. Qed.

(** When every directory above [p] exists, [makedirs] of a path above or
    below [p] changes nothing outside [p]. *)
Lemma makedirs_same_outside p t fs fs' :
  above_exist p fs → p `prefix_of` t ∨ t `prefix_of` p →
  makedirs t fs = inr fs' → same_outside p fs fs'.
Proof.
  intros Habove Hpt Hm q Hq.
  destruct (fs' !! q) as [n|] eqn:E.
  - destruct (makedirs_from_new _ _ _ _ _ _ Hm E) as [?|(-> & r & Hr & Hpre & ->)]; [done|].
    simpl in *. assert (r `prefix_of` p) as Hrp.
    { destruct Hpt as [Hpt|Hpt]; [|by etrans].
      destruct (prefix_comparable r p t) as [?|?]; done. }
    symmetry. by apply Habove.
  - destruct (fs !! q) as [n|] eqn:E'; [|done].
    rewrite (makedirs_from_keeps _ _ _ _ _ _ Hm E') in E. done.
Qed.

Lemma above_exist_kept p fs fs' : dirs_kept fs fs' → above_exist p fs → above_exist p fs'.
Proof. intros Hk Ha q Hq Hpre. by apply Hk, Ha. Qed.

Lemma fs_wf_above_exist fs p : fs_wf fs → fs !! p = Some Dir → above_exist p fs.
Proof.
  intros Hwf Hp q Hq [k ->].
  destruct (decide (k = [])) as [->|Hk]; [by rewrite app_nil_r in Hp|].
  apply is_dir_lookup; [done|]. eapply fs_wf_above; eauto.
Qed.

(** *** [rmtree] *)

Lemma rmtree_inr p fs fs' :
  rmtree p fs = inr fs' →
  fs' = filter (λ kv, ¬ p `prefix_of` kv.1) fs ∧ is_dir fs p = true.
Proof.
  unfold rmtree, is_dir. destruct (lookup_node fs p) as [[]|]; [done | | done].
  by intros [= <-].
Qed.

Lemma rmtree_ok p fs :
  is_dir fs p = true → rmtree p fs = inr (filter (λ kv, ¬ p `prefix_of` kv.1) fs).
Proof. unfold rmtree, is_dir. by destruct (lookup_node fs p) as [[]|]. Qed.

Lemma rmtree_lookup p fs fs' q n :
  rmtree p fs = inr fs' → fs' !! q = Some n ↔ fs !! q = Some n ∧ ¬ p `prefix_of` q.
Proof. intros [-> _]%rmtree_inr. by rewrite map_lookup_filter_Some. Qed.

Lemma rmtree_no_tree p fs fs' : rmtree p fs = inr fs' → no_tree p fs'.
Proof.
  intros Hrm r. destruct (fs' !! (p ++ r)) as [n|] eqn:E; [|done].
  apply (rmtree_lookup _ _ _ _ _ Hrm) in E as [_ Hnp]. destruct Hnp. by exists r.
Qed.

Lemma rmtree_same_outside p fs fs' : rmtree p fs = inr fs' → same_outside p fs fs'.
Proof.
  intros Hrm q Hq. destruct (fs !! q) as [n|] eqn:E.
  - by apply (rmtree_lookup _ _ _ _ _ Hrm).
  - destruct (fs' !! q) as [n|] eqn:E'; [|done].
    apply (rmtree_lookup _ _ _ _ _ Hrm) in E' as [? _]. congruence.
Qed.


(** *** Well-formedness is kept *)

Lemma parent_ne p : p ≠ [] → parent p ≠ p.
Proof.
  intros Hp Heq. destruct (exists_last Hp) as (q & c & ->).
  rewrite parent_snoc in Heq. apply (f_equal length) in Heq.
  rewrite length_app in Heq. simpl in Heq. lia.
Qed.

Lemma fs_wf_insert fs p n :
  fs_wf fs → p ≠ [] → Forall valid_name p → is_dir fs (parent p) = true →
  (n = Dir ∨ fs !! p ≠ Some Dir) →
  fs_wf (<[p := n]> fs).
Proof.
  intros Hwf Hp Hv Hpar Hn q m Hq.
  assert (∀ t, is_dir fs t = true → t ≠ p ∨ n = Dir → is_dir (<[p := n]> fs) t = true) as Hd.
  { intros t Ht Hor. destruct (decide (t = [])) as [->|Hne]; [done|].
    apply is_dir_lookup; [done|]. apply is_dir_lookup in Ht; [|done].
    destruct (decide (t = p)) as [->|Htp].
    - destruct Hor as [?| ->]; [done|]. apply lookup_insert_eq.
    - by rewrite lookup_insert_ne. }
  destruct (decide (q = p)) as [->|Hqp].
  - split_and!; [done..|]. apply Hd; [done|]. left. by apply parent_ne.
  - rewrite lookup_insert_ne in Hq by done.
    destruct (fs_wf_lookup _ _ _ Hwf Hq) as (Hq1 & Hq2 & Hq3).
    split_and!; [done..|]. apply Hd; [done|].
    destruct (decide (parent q = p)) as [Heq|]; [|by left].
    destruct Hn as [->|Hnd]; [by right|].
    rewrite Heq in Hq3. apply is_dir_lookup in Hq3; done.
Qed.

Lemma fs_wf_rmtree p fs fs' : fs_wf fs → rmtree p fs = inr fs' → fs_wf fs'.
Proof.
  intros Hwf Hrm q n Hq.
  apply (rmtree_lookup _ _ _ _ _ Hrm) in Hq as [Hq Hnp].
  destruct (fs_wf_lookup _ _ _ Hwf Hq) as (Hq1 & Hq2 & Hq3).
  split_and!; [done..|].
  destruct (decide (parent q = [])) as [->|Hne]; [done|].
  apply is_dir_lookup; [done|]. apply is_dir_lookup in Hq3; [|done].
  apply (rmtree_lookup _ _ _ _ _ Hrm). split; [done|].
  intros Hpre. apply Hnp. etrans; [done|]. apply parent_prefix.
Qed.

Lemma fs_wf_write_bytes p d fs fs' :
  fs_wf fs → Forall valid_name p → write_bytes p d fs = inr fs' → fs_wf fs'.
Proof.
  intros Hwf Hv (-> & Hpar & Hnd & Hp)%write_bytes_inr.
  apply fs_wf_insert; auto.
Qed.

Lemma fs_wf_makedirs_from done todo fs fs' :
  fs_wf fs → is_dir fs done = true → Forall valid_name (done ++ todo) →
  makedirs_from done todo fs = inr fs' → fs_wf fs'.
Proof.
  revert done fs. induction todo as [|c rest IH]; intros done fs Hwf Hdone Hv; simpl.
  - by intros [= <-].
  - assert (Forall valid_name ((done ++ [c]) ++ rest)) as Hv' by (by rewrite <- app_assoc).
    assert (done ++ [c] ≠ []) as Hne by (by destruct done).
    destruct (fs !! (done ++ [c])) as [[]|] eqn:E; [done | |].
    + apply IH; [done | by apply is_dir_lookup | done].
    + apply IH; [| apply is_dir_lookup; [done | apply lookup_insert_eq] | done].
      apply fs_wf_insert; [done.. | | | by left].
      * by apply Forall_app in Hv' as [? _].
      * by rewrite parent_snoc.
Qed.

(** *** [os.walk] *)

Lemma elem_of_walk_files top fs rel d :
  (rel, d) ∈ walk_files top fs ↔ rel ≠ [] ∧ fs !! (top ++ rel) = Some (File d).
Proof.
  unfold walk_files. rewrite list_elem_of_omap. split.
  - intros ([q n] & Hin & Hw). apply elem_of_map_to_list in Hin.
    unfold walk_entry in Hw. simpl in Hw. destruct n as [d'|]; [|done].
    destruct (relative_to top q) as [[|c r]|] eqn:E; [done| |done].
    injection Hw as <- <-. apply relative_to_Some in E as ->. done.
  - intros [Hrel Hf]. exists (top ++ rel, File d). split; [by apply elem_of_map_to_list|].
    unfold walk_entry. simpl. rewrite relative_to_app. by destruct rel.
Qed.

Lemma walk_entry_inj top kv1 kv2 x :
  walk_entry top kv1 = Some x → walk_entry top kv2 = Some x → kv1 = kv2.
Proof.
  destruct kv1 as [q1 n1], kv2 as [q2 n2]. unfold walk_entry. simpl.
  destruct n1 as [d1|]; [|done]. destruct n2 as [d2|]; [|done].
  destruct (relative_to top q1) as [[|c1 r1]|] eqn:E1; [done| |done].
  destruct (relative_to top q2) as [[|c2 r2]|] eqn:E2; [done| |done].
  intros [= <-] [= <- <- <-].
  apply relative_to_Some in E1 as ->. apply relative_to_Some in E2 as ->. done.
Qed.

Lemma NoDup_omap_inj {A B} (f : A → option B) (l : list A) :
  (∀ x y z, f x = Some z → f y = Some z → x = y) → NoDup l → NoDup (omap f l).
Proof.
  intros Hinj. induction 1 as [|a l Ha Hnd IH]; simpl; [constructor|].
  destruct (f a) as [b|] eqn:E; [|done]. constructor; [|done].
  rewrite list_elem_of_omap. intros (a' & Hin & Ha'). by rewrite (Hinj _ _ _ E Ha') in Ha.
Qed.

Lemma NoDup_walk_files top fs : NoDup (walk_files top fs).
Proof.
  apply NoDup_omap_inj; [apply walk_entry_inj | apply NoDup_map_to_list].
Qed.

Lemma NoDup_singleton_eq {A} (l : list A) x : NoDup l → (∀ y, y ∈ l ↔ y = x) → l = [x].
Proof.
  intros Hnd Hx. destruct l as [|a l].
  - exfalso. by apply (not_elem_of_nil x), Hx.
  - assert (a = x) as -> by (apply Hx; left).
    destruct l as [|b l]; [done|]. exfalso.
    assert (b = x) as -> by (apply Hx; right; left).
    apply NoDup_cons in Hnd as [Hnin _]. apply Hnin. left.
Qed.

Lemma elem_of_nil_eq {A} (l : list A) : (∀ y, y ∉ l) → l = [].
Proof. destruct l as [|a l]; [done|]. intros Hl. destruct (Hl a). left. Qed.

(** ** The methods *)

#[global] Arguments lookup_node : simpl never.
#[global] Arguments path_exists : simpl never.
#[global] Arguments is_dir : simpl never.
#[global] Arguments read_bytes : simpl never.
#[global] Arguments read_text : simpl never.
#[global] Arguments write_bytes : simpl never.
#[global] Arguments write_text : simpl never.
#[global] Arguments makedirs : simpl never.
#[global] Arguments rmtree : simpl never.
#[global] Arguments copy2 : simpl never.
#[global] Arguments walk_files : simpl never.
#[global] Arguments resolve : simpl never.
#[global] Arguments parent : simpl never.
#[global] Arguments sorted : simpl never.

Ltac mstep :=
  unfold mbind, mret, M_bind, M_ret, raise, get_self, get_disk, set_temp_dir,
    set_is_mounted, lift, fs_read, try_except, try_finally in *;
  simpl in *.

Ltac munfold :=
  unfold mbind, mret, M_bind, M_ret, raise, get_self, get_disk, set_temp_dir,
    set_is_mounted, lift, fs_read, fs_write, try_except, try_finally in *;
  simpl in *.

Section Lifecycle.

Context {tempfile : TempFiles} {crypto : Cipher} {tarfile : Archive}.

(** ** What every method keeps *)

Lemma keeps_refl w : keeps w w.
Proof. split; [done | apply dirs_kept_refl]. Qed.

Lemma keeps_trans w1 w2 w3 : keeps w1 w2 → keeps w2 w3 → keeps w1 w3.
Proof.
  intros [Hs1 Hd1] [Hs2 Hd2]. split; [congruence | by eapply dirs_kept_trans].
Qed.

Lemma fs_write_keeps f w r w' :
  (∀ fs fs', f fs = inr fs' → dirs_kept fs fs') → fs_write f w = (r, w') → keeps w w'.
Proof.
  intros Hf. unfold fs_write. destruct (f (disk w)) as [e|fs'] eqn:E; intros [= <- <-].
  - apply keeps_refl.
  - split; [done | by apply Hf].
Qed.

Lemma extract_member_keeps d m w r w' : extract_member d m w = (r, w') → keeps w w'.
Proof.
  unfold extract_member. mstep.
  destruct (path_exists (disk w) (parent (resolve d m.1))).
  - apply fs_write_keeps, write_bytes_dirs_kept.
  - destruct (fs_write (makedirs (parent (resolve d m.1))) w) as [[e|[]] w1] eqn:E1.
    + intros [= <- <-]. eapply fs_write_keeps, E1. apply makedirs_dirs_kept.
    + intros E2. eapply keeps_trans.
      * eapply fs_write_keeps, E1. apply makedirs_dirs_kept.
      * eapply fs_write_keeps, E2. apply write_bytes_dirs_kept.
Qed.

Lemma extractall_keeps d ms w r w' : extractall d ms w = (r, w') → keeps w w'.
Proof.
  revert w. induction ms as [|m ms IH]; intros w; simpl.
  - intros [= <- <-]. apply keeps_refl.
  - mstep. destruct (extract_member d m w) as [[e|[]] w1] eqn:E1.
    + intros [= <- <-]. by eapply extract_member_keeps.
    + intros E2. eapply keeps_trans; [by eapply extract_member_keeps | by eapply IH].
Qed.

Lemma copy2_dirs_kept src dst fs fs' : copy2 src dst fs = inr fs' → dirs_kept fs fs'.
Proof.
  unfold copy2. case_decide; [done|].
  destruct (read_bytes src fs); [done|]. apply write_bytes_dirs_kept.
Qed.

Lemma save_keeps key w r w' : save key w = (r, w') → keeps w w'.
Proof.
  unfold save, NamedTemporaryFile. mstep.
  destruct (is_mounted (self w)); simpl; [|intros [= <- <-]; apply keeps_refl].
  destruct (is_dir (disk w) tmpdir); [|intros [= <- <-]; apply keeps_refl].
  destruct (temp_dir (self w)); simpl; [|intros [= <- <-]; apply keeps_refl].
  destruct (encrypt _ key); [intros [= <- <-]; apply keeps_refl|].
  apply fs_write_keeps. intros fs fs'. apply write_bytes_dirs_kept.
Qed.

Lemma add_file_try_keeps file_path key target w r w' :
  add_file_try file_path key target w = (r, w') → keeps w w'.
Proof.
  unfold add_file_try. mstep.
  destruct (temp_dir (self w)) as [d|]; [|intros [= <- <-]; apply keeps_refl].
  set (dest := match target with Some (c :: t) => resolve d (c :: t) | _ => resolve d [name file_path] end).
  destruct (fs_write (makedirs (parent dest)) w) as [[e|[]] w1] eqn:E1.
  { intros [= <- <-]. eapply fs_write_keeps, E1. apply makedirs_dirs_kept. }
  assert (keeps w w1) as K1 by (eapply fs_write_keeps, E1; apply makedirs_dirs_kept).
  destruct (fs_write (copy2 file_path dest) w1) as [[e|[]] w2] eqn:E2.
  { intros [= <- <-]. eapply keeps_trans; [done|].
    eapply fs_write_keeps, E2. apply copy2_dirs_kept. }
  assert (keeps w1 w2) as K2 by (eapply fs_write_keeps, E2; apply copy2_dirs_kept).
  intros E3. eapply keeps_trans; [done|]. eapply keeps_trans; [done|]. by eapply save_keeps.
Qed.

(** ** [unmount] *)

Lemma unmount_not_mounted w : is_mounted (self w) = false → unmount w = (inr tt, w).
Proof. intros Hm. unfold unmount. munfold. by rewrite Hm. Qed.

(** [unmount] of a mounted object whose working tree is a directory. *)
Lemma unmount_mounted w d :
  is_mounted (self w) = true → temp_dir (self w) = Some d → is_dir (disk w) d = true →
  unmount w =
    (inr tt,
     {| self := {| container_path := container_path (self w);
                   temp_dir := None; is_mounted := false |};
        disk := filter (λ kv, ¬ d `prefix_of` kv.1) (disk w) |}).
Proof.
  intros Hm Hd Hdir. unfold unmount. munfold. rewrite Hm, Hd. simpl.
  rewrite (is_dir_exists _ _ Hdir), (rmtree_ok _ _ Hdir). done.
Qed.

(** ** [mount] *)

Lemma mkdtemp_path_ne pre fs : mkdtemp_path pre fs ≠ [].
Proof. unfold mkdtemp_path. by destruct tmpdir. Qed.

Lemma mkdtemp_cases pre w r w' :
  mkdtemp pre w = (r, w') →
  (∃ e, r = inl e ∧ w' = w)
  ∨ (is_dir (disk w) tmpdir = true
     ∧ r = inr (mkdtemp_path pre (disk w))
     ∧ w' = {| self := self w; disk := <[mkdtemp_path pre (disk w) := Dir]> (disk w) |}).
Proof.
  unfold mkdtemp. munfold. destruct (is_dir (disk w) tmpdir).
  - intros [= <- <-]. by right.
  - intros [= <- <-]. left. by eexists.
Qed.

(** The [try] block either fails before a working tree is allocated, and
    then nothing has changed, or it allocates the directory that [mkdtemp]
    picks, records it in the object and unpacks below it. *)
Lemma mount_try_cases s key w r w' :
  mount_try s key w = (r, w') →
  (∃ e, r = inl e ∧ w' = w)
  ∨ (let d := mkdtemp_path "zero_file_share_" (disk w) in
     is_dir (disk w) tmpdir = true
     ∧ temp_dir (self w') = Some d
     ∧ container_path (self w') = container_path (self w)
     ∧ dirs_kept (<[d := Dir]> (disk w)) (disk w')
     ∧ ((r = inr d ∧ is_mounted (self w') = true)
        ∨ (∃ e, r = inl e ∧ is_mounted (self w') = is_mounted (self w)))).
Proof.
  unfold mount_try. mstep.
  destruct (read_text (container_path s) (disk w)) as [e|text]; [intros [= <- <-]; left; by eexists|].
  destruct (decrypt text key) as [e|tar_data]; [intros [= <- <-]; left; by eexists|].
  destruct (mkdtemp "zero_file_share_" w) as [r1 w1] eqn:E1.
  apply mkdtemp_cases in E1 as [(e & -> & ->)|(Htmp & -> & ->)];
    [intros [= <- <-]; left; by eexists|].
  simpl. set (d := mkdtemp_path "zero_file_share_" (disk w)).
  unfold NamedTemporaryFile. mstep.
  destruct (is_dir (<[d:=Dir]> (disk w)) tmpdir).
  2:{ intros [= <- <-]. right. simpl. split_and!; [done..| apply dirs_kept_refl |].
      right. by eexists. }
  destruct (tar_read tar_data) as [e|tar].
  { intros [= <- <-]. right. simpl. split_and!; [done..| apply dirs_kept_refl |].
    right. by eexists. }
  match goal with |- context [extractall d tar ?w0] =>
    destruct (extractall d tar w0) as [[e|[]] w2] eqn:E2 end;
    apply extractall_keeps in E2 as [Hs Hd]; simpl in *.
  - intros [= <- <-]. right. rewrite Hs. simpl. split_and!; [done..|].
    right. by eexists.
  - intros [= <- <-]. right. simpl. rewrite Hs. simpl. split_and!; [done..|].
    by left.
Qed.

Lemma mount_unfold key w :
  is_mounted (self w) = false →
  mount key w = try_except (mount_try (self w) key) mount_except w.
Proof. intros Hm. unfold mount. mstep. by rewrite Hm. Qed.

(** ** Unpacking stays inside the working tree when the names do *)

Lemma fs_write_cases f w r w' :
  fs_write f w = (r, w') →
  (∃ e, f (disk w) = inl e ∧ r = inl e ∧ w' = w)
  ∨ (∃ fs', f (disk w) = inr fs' ∧ r = inr tt ∧ w' = {| self := self w; disk := fs' |}).
Proof.
  unfold fs_write. destruct (f (disk w)) as [e|fs'] eqn:E; intros [= <- <-].
  - left. by eexists.
  - right. by eexists.
Qed.

Lemma extract_member_same_outside d m w r w' :
  above_exist d (disk w) → d `prefix_of` resolve d m.1 →
  extract_member d m w = (r, w') → same_outside d (disk w) (disk w').
Proof.
  intros Habove Hin. unfold extract_member. mstep.
  set (t := resolve d m.1) in *.
  assert (d `prefix_of` parent t ∨ parent t `prefix_of` d) as Hup.
  { destruct Hin as [k Hk]. rewrite Hk. destruct (decide (k = [])) as [->|Hne].
    - right. rewrite app_nil_r. apply parent_prefix.
    - left. rewrite parent_app by done. by eexists. }
  destruct (path_exists (disk w) (parent t)).
  - intros [(e & _ & _ & ->)|(fs' & Hw & _ & ->)]%fs_write_cases;
      [apply same_outside_refl|]. by eapply write_bytes_same_outside.
  - destruct (fs_write (makedirs (parent t)) w) as [[e|[]] w1] eqn:E1;
      apply fs_write_cases in E1 as [(e1 & He1 & ? & ->)|(fs1 & Hm1 & ? & ->)];
      try done.
    + intros [= <- <-]. apply same_outside_refl.
    + intros [(e & _ & _ & ->)|(fs' & Hw & _ & ->)]%fs_write_cases; simpl in *.
      * by eapply makedirs_same_outside.
      * eapply same_outside_trans; [by eapply makedirs_same_outside|].
        by eapply write_bytes_same_outside.
Qed.

Lemma extractall_same_outside d ms w r w' :
  above_exist d (disk w) → Forall (λ m, d `prefix_of` resolve d m.1) ms →
  extractall d ms w = (r, w') → same_outside d (disk w) (disk w').
Proof.
  intros Habove Hin. revert w Habove.
  induction Hin as [|m ms Hm Hms IH]; intros w Habove; simpl.
  - intros [= <- <-]. apply same_outside_refl.
  - mstep. destruct (extract_member d m w) as [[e|[]] w1] eqn:E1.
    + intros [= <- <-]. by eapply extract_member_same_outside.
    + intros E2. eapply same_outside_trans; [by eapply extract_member_same_outside|].
      eapply IH; [|done]. eapply above_exist_kept; [|done].
      by apply extract_member_keeps in E1 as [_ ?].
Qed.

Lemma insert_same_outside (d : path) (n : node) (fs : FS) : same_outside d fs (<[d := n]> fs).
Proof. intros q Hq. rewrite lookup_insert_ne; [done|]. by intros ->. Qed.

Lemma above_exist_mkdtemp d fs :
  fs_wf fs → is_dir fs (parent d) = true → above_exist d (<[d := Dir]> fs).
Proof.
  intros Hwf Hpar q Hq Hpre.
  destruct (decide (q = d)) as [->|Hne]; [apply lookup_insert_eq|].
  rewrite lookup_insert_ne by done.
  assert (q `prefix_of` parent d) as Hqp.
  { destruct Hpre as [k ->]. destruct (snoc_cases k) as [->|(k' & c & ->)].
    - by rewrite app_nil_r in Hne.
    - rewrite app_assoc, parent_snoc. by eexists. }
  destruct (decide (parent d = [])) as [Hnil|Hnn].
  { rewrite Hnil in Hqp. by apply prefix_nil_inv in Hqp. }
  apply is_dir_lookup in Hpar; [|done].
  by apply (fs_wf_above_exist _ _ Hwf Hpar).
Qed.

Lemma stored_archive_Some cp key fs ms :
  stored_archive cp key fs = Some ms →
  ∃ text data, read_text cp fs = inr text ∧ decrypt text key = inr data ∧ tar_read data = inr ms.
Proof.
  unfold stored_archive. destruct (read_text cp fs) as [|text] eqn:E1; [done|].
  destruct (decrypt text key) as [|data] eqn:E2; [done|].
  destruct (tar_read data) as [|ms'] eqn:E3; [done|]. intros [= <-]. by exists text, data.
Qed.

(** With a readable archive whose names stay inside, the [try] block
    allocates its directory and changes nothing outside it. *)
Lemma mount_try_same_outside s key w r w' ms :
  let d := mkdtemp_path "zero_file_share_" (disk w) in
  fs_wf (disk w) → is_dir (disk w) tmpdir = true →
  stored_archive (container_path s) key (disk w) = Some ms →
  Forall (λ m, d `prefix_of` resolve d m.1) ms →
  mount_try s key w = (r, w') →
  temp_dir (self w') = Some d
  ∧ is_dir (disk w') d = true
  ∧ same_outside d (disk w) (disk w').
Proof.
  intros d Hwf Htmp (text & data & Hr & Hdec & Htar)%stored_archive_Some Hin.
  unfold mount_try, mkdtemp, NamedTemporaryFile. munfold.
  rewrite Hr, Hdec, Htmp. simpl. fold d.
  assert (is_dir (<[d := Dir]> (disk w)) d = true) as Hd.
  { apply is_dir_lookup; [apply mkdtemp_path_ne | apply lookup_insert_eq]. }
  destruct (is_dir (<[d:=Dir]> (disk w)) tmpdir).
  2:{ intros [= <- <-]. simpl. split_and!; [done..|]. apply insert_same_outside. }
  rewrite Htar.
  match goal with |- context [extractall d ms ?w0] =>
    destruct (extractall d ms w0) as [[e|[]] w2] eqn:E2 end.
  all: pose proof (extractall_keeps _ _ _ _ _ E2) as [Hs Hk].
  all: apply extractall_same_outside in E2; [|simpl|done].
  2,4: apply above_exist_mkdtemp; [done|]; unfold d, mkdtemp_path; by rewrite parent_snoc.
  all: intros [= <- <-]; simpl in *; rewrite Hs; simpl.
  all: split_and!; [done | by eapply dirs_kept_is_dir |].
  all: eapply same_outside_trans; [apply insert_same_outside | done].
Qed.


Lemma mount_same_outside key w r w' ms :
  let d := mkdtemp_path "zero_file_share_" (disk w) in
  fs_wf (disk w) → is_mounted (self w) = false → is_dir (disk w) tmpdir = true →
  stored_archive (container_path (self w)) key (disk w) = Some ms →
  Forall (λ m, d `prefix_of` resolve d m.1) ms →
  mount key w = (r, w') →
  same_outside d (disk w) (disk w').
Proof.
  intros d Hwf Hm Htmp Har Hin. rewrite mount_unfold by done. unfold try_except.
  destruct (mount_try (self w) key w) as [[e|p] w1] eqn:E1;
    apply (mount_try_same_outside _ _ _ _ _ ms) in E1 as (Htd & Hdir & Hout); try done.
  - unfold mount_except. munfold. rewrite Htd. simpl.
    rewrite (is_dir_exists _ _ Hdir), (rmtree_ok _ _ Hdir). intros [= <- <-]. simpl.
    eapply same_outside_trans; [done|]. apply rmtree_same_outside. by apply rmtree_ok.
  - by intros [= <- <-].
Qed.



(** ** Unpacking what [save] packed *)

Lemma prefix_app_cases (q d k : path) :
  q `prefix_of` d ++ k → q `prefix_of` d ∨ ∃ r, r ≠ [] ∧ q = d ++ r ∧ r `prefix_of` k.
Proof.
  intros Hq. destruct (prefix_comparable q d (d ++ k)) as [?|[r ->]];
    [done | by apply prefix_app_r | by left |].
  destruct (decide (r = [])) as [->|Hr]; [left; by rewrite app_nil_r|].
  right. exists r. split_and!; [done..|]. by eapply prefix_app_inv.
Qed.

Lemma parent_strict (rel : path) : rel ≠ [] → ¬ rel `prefix_of` parent rel.
Proof.
  intros Hne [k Hk]. destruct (exists_last Hne) as (q & c & ->).
  rewrite parent_snoc in Hk. apply (f_equal length) in Hk.
  rewrite !length_app in Hk. simpl in Hk. lia.
Qed.

Lemma app_ne_self (d rel : path) : rel ≠ [] → d ++ rel ≠ d.
Proof.
  intros Hne Heq. apply (f_equal length) in Heq. rewrite length_app in Heq.
  destruct rel; [done | simpl in Heq; lia].
Qed.

Lemma prefix_app_ne (q d rel : path) : rel ≠ [] → q `prefix_of` d → q ≠ d ++ rel.
Proof.
  intros Hne [k ->] Heq. rewrite <- app_assoc in Heq.
  rewrite <- (app_nil_r q) in Heq at 1. apply app_inv_head in Heq.
  symmetry in Heq. apply app_eq_nil in Heq as [_ ->]. done.
Qed.

Lemma unpacked_equiv d fs l l' : (∀ x, x ∈ l ↔ x ∈ l') → unpacked d fs l → unpacked d fs l'.
Proof.
  intros Heq (Hd & Habove & Hfw & Hbw). split_and!; [done..| |].
  - intros rel n Hrel Hn. specialize (Hfw rel n Hrel Hn). destruct n as [data|].
    + by apply Heq.
    + destruct Hfw as (m & Hm & ?). exists m. split; [by apply Heq | done].
  - intros m Hm. by apply Hbw, Heq.
Qed.

(** The directories above the target: after the step that makes them, every
    old entry is kept, every new entry is a directory above the target, and
    the parent of the target is a directory. *)
Lemma extract_member_step d m done all w :
  fs_wf (disk w) → unpacked d (disk w) done → consistent all →
  (∀ x, x ∈ done → x ∈ all) → m ∈ all →
  m.1 ≠ [] → Forall valid_name m.1 →
  ∃ fs', extract_member d m w = (inr tt, {| self := self w; disk := fs' |})
    ∧ fs_wf fs' ∧ unpacked d fs' (m :: done).
Proof.
  intros Hwf (Hd & Habove & Hfw & Hbw) Hcons Hsub Hm Hne Hvalid.
  destruct (fs_wf_lookup _ _ _ Hwf Hd) as (Hdne & Hdvalid & _).
  destruct m as [rel data]. simpl in *.
  assert (Forall valid_name (d ++ parent rel)) as Hupvalid.
  { apply Forall_app. split; [done|]. destruct (parent_prefix rel) as [k Hk].
    rewrite Hk in Hvalid. by apply Forall_app in Hvalid as [? _]. }
  unfold extract_member. simpl. rewrite (resolve_valid _ _ Hvalid).
  rewrite (parent_app d rel Hne). set (upper := d ++ parent rel).
  assert (upper ≠ []) as Hupne by (unfold upper; by destruct d).
  (* nothing above the target is a regular file *)
  assert (∀ q data', q ≠ [] → q `prefix_of` upper → disk w !! q ≠ Some (File data')) as HnoF.
  { intros q data' Hq [Hqd|(r & Hr & -> & Hrp)]%prefix_app_cases Hf.
    - rewrite (Habove q Hq Hqd) in Hf. done.
    - specialize (Hfw r _ Hr Hf). simpl in Hfw.
      assert ((r, data') = (rel, data)) as Heq.
      { apply Hcons; [by apply Hsub | done |]. simpl. etrans; [done|]. apply parent_prefix. }
      injection Heq as -> _. by apply (parent_strict rel). }
  (* the step that makes the directories *)
  assert (∃ fs1,
    (fs ← get_disk;
     (if path_exists fs upper then mret () else fs_write (makedirs upper))) w
      = (inr tt, {| self := self w; disk := fs1 |})
    ∧ (∀ q n, disk w !! q = Some n → fs1 !! q = Some n)
    ∧ (∀ q n, fs1 !! q = Some n →
         disk w !! q = Some n ∨ (n = Dir ∧ q ≠ [] ∧ q `prefix_of` upper))
    ∧ fs1 !! upper = Some Dir
    ∧ fs_wf fs1) as (fs1 & Hstep & Hkeep & Hnew & Hup & Hwf1).
  { mstep. destruct (path_exists (disk w) upper) eqn:Hex.
    - exists (disk w). split; [by destruct w|]. split_and!; [done | by left | | done].
      apply path_exists_lookup in Hex as [[data'|] Hn]; [|done..].
      by destruct (HnoF upper data').
    - destruct (makedirs_from_ok [] upper (disk w)) as [fs1 Hmk].
      { intros r data' Hr Hpre. simpl. by apply HnoF. }
      exists fs1. unfold fs_write, makedirs. rewrite Hmk. split; [done|]. split_and!.
      + intros q n. by eapply makedirs_from_keeps.
      + intros q n Hq. destruct (makedirs_from_new _ _ _ _ _ _ Hmk Hq)
          as [?|(-> & r & Hr & Hpre & ->)]; [by left | right]. done.
      + by apply (makedirs_from_made [] upper _ _ upper Hmk).
      + by apply (fs_wf_makedirs_from [] upper (disk w)). }
  (* the target is not a directory *)
  assert (fs1 !! (d ++ rel) ≠ Some Dir) as Hnd.
  { intros Hdir. destruct (Hnew _ _ Hdir) as [Hold|(_ & _ & Hpre)].
    - destruct (Hfw rel _ Hne Hold) as (m' & Hm' & Hpre & Hneq).
      apply Hneq. by rewrite <- (Hcons _ _ Hm (Hsub _ Hm') Hpre).
    - apply prefix_app_inv in Hpre. by apply (parent_strict rel). }
  exists (<[d ++ rel := File data]> fs1). split.
  { mstep. rewrite Hstep. unfold fs_write. simpl.
    rewrite write_bytes_ok; [done | by destruct d | | done].
    rewrite (parent_app d rel Hne). by apply is_dir_lookup. }
  split.
  { apply fs_wf_insert; [done | by destruct d | by apply Forall_app | | by right].
    rewrite (parent_app d rel Hne). by apply is_dir_lookup. }
  split_and!.
  - rewrite lookup_insert_ne by (by apply app_ne_self). by apply Hkeep.
  - intros q Hq Hpre. rewrite lookup_insert_ne; [by apply Hkeep, Habove|].
    intros Heq. symmetry in Heq. revert Heq. by apply prefix_app_ne.
  - intros rel' n Hrel' Hn. destruct (decide (rel' = rel)) as [->|Hneq].
    + rewrite lookup_insert_eq in Hn. injection Hn as <-. left.
    + rewrite lookup_insert_ne in Hn by (intros Heq; by apply app_inv_head in Heq).
      destruct (Hnew _ _ Hn) as [Hold|(-> & _ & Hpre)].
      * specialize (Hfw rel' n Hrel' Hold). destruct n as [data'|].
        -- by right.
        -- destruct Hfw as (m' & Hm' & ?). exists m'. split; [by right | done].
      * apply prefix_app_inv in Hpre. exists (rel, data). split; [left|]. simpl.
        split; [etrans; [done | apply parent_prefix] | done].
  - intros m' [->|Hm']%elem_of_cons; simpl; [apply lookup_insert_eq|].
    destruct (decide (m'.1 = rel)) as [Heq|Hneq].
    + assert (m' = (rel, data)) as -> by (apply Hcons; [by apply Hsub | done | by rewrite Heq]).
      apply lookup_insert_eq.
    + rewrite lookup_insert_ne by (intros Heq; by apply app_inv_head in Heq).
      by apply Hkeep, Hbw.
Qed.

Lemma extractall_unpacks d ms done all w :
  fs_wf (disk w) → unpacked d (disk w) done → consistent all →
  (∀ x, x ∈ done → x ∈ all) → (∀ x, x ∈ ms → x ∈ all) →
  Forall (λ m, m.1 ≠ [] ∧ Forall valid_name m.1) ms →
  ∃ fs', extractall d ms w = (inr tt, {| self := self w; disk := fs' |})
    ∧ fs_wf fs' ∧ unpacked d fs' (ms ++ done).
Proof.
  intros Hwf Hun Hcons Hdone Hms Hvalid. revert done w Hwf Hun Hdone Hms.
  induction Hvalid as [|m ms [Hm1 Hm2] _ IH]; intros done w Hwf Hun Hdone Hms; simpl.
  - exists (disk w). split; [by destruct w | done].
  - destruct (extract_member_step d m done all w) as (fs1 & Hstep & Hwf1 & Hun1); try done.
    { apply Hms. left. }
    destruct (IH (m :: done) {| self := self w; disk := fs1 |})
      as (fs2 & Hrest & Hwf2 & Hun2); try done.
    { intros x [->|?]%elem_of_cons; [apply Hms; left | by apply Hdone]. }
    { intros x Hx. apply Hms. by right. }
    exists fs2. split; [mstep; by rewrite Hstep|]. split; [done|].
    eapply unpacked_equiv; [|done]. intros x.
    rewrite !elem_of_app, !elem_of_cons, elem_of_app. tauto.
Qed.

Lemma walk_files_consistent top fs : fs_wf fs → consistent (walk_files top fs).
Proof.
  intros Hwf [r1 d1] [r2 d2] [Hr1 Hf1]%elem_of_walk_files [Hr2 Hf2]%elem_of_walk_files [k Hk].
  simpl in *. subst r2. destruct (decide (k = [])) as [->|Hne].
  - rewrite app_nil_r in *. congruence.
  - exfalso. rewrite app_assoc in Hf2.
    assert (is_dir fs (top ++ r1) = true) as Hdir by (eapply fs_wf_above; eauto).
    apply is_dir_lookup in Hdir; [congruence | by destruct top, r1].
Qed.

Lemma walk_files_valid top fs :
  fs_wf fs → Forall (λ m, m.1 ≠ [] ∧ Forall valid_name m.1) (walk_files top fs).
Proof.
  intros Hwf. apply Forall_forall. intros [rel data] [Hrel Hf]%elem_of_walk_files.
  split; [done|]. simpl. eapply fs_wf_valid; eauto.
Qed.

(** ** Returning runs *)

Lemma mkdtemp_path_valid fs :
  fs_wf fs → is_dir fs tmpdir = true →
  Forall valid_name (mkdtemp_path "zero_file_share_" fs).
Proof.
  intros Hwf Htmp. unfold mkdtemp_path. apply Forall_app. split.
  - destruct (decide (tmpdir = [])) as [->|Hne]; [done|].
    apply is_dir_lookup in Htmp; [|done].
    by destruct (fs_wf_lookup _ _ _ Hwf Htmp) as (_ & ? & _).
  - apply Forall_singleton. unfold valid_name. simpl. split_and!; discriminate.
Qed.

Lemma mkdtemp_path_not_above pre fs : ¬ mkdtemp_path pre fs `prefix_of` tmpdir.
Proof.
  intros [k Hk]. unfold mkdtemp_path in Hk. apply (f_equal length) in Hk.
  rewrite !length_app in Hk. simpl in Hk. lia.
Qed.

Lemma is_dir_insert_other (fs : FS) (p q : path) (n : node) :
  is_dir fs q = true → fs !! p ≠ Some Dir → is_dir (<[p := n]> fs) q = true.
Proof.
  intros Hq Hp. destruct (decide (q = [])) as [->|Hne]; [done|].
  apply is_dir_lookup; [done|]. apply is_dir_lookup in Hq; [|done].
  rewrite lookup_insert_ne; [done|]. by intros ->.
Qed.

Lemma list_files_mounted w d :
  is_mounted (self w) = true → temp_dir (self w) = Some d →
  list_files w = (inr (sorted ((λ f, str_rel f.1) <$> walk_files d (disk w))), w).
Proof. intros Hm Hd. unfold list_files. mstep. by rewrite Hm, Hd. Qed.

Lemma walk_files_unpacked d fs ms x : unpacked d fs ms → x ∈ walk_files d fs ↔ x ∈ ms.
Proof.
  intros (Hd & _ & Hfw & Hbw). destruct x as [rel data].
  rewrite elem_of_walk_files. split.
  - intros [Hrel Hf]. exact (Hfw rel _ Hrel Hf).
  - intros Hm. specialize (Hbw _ Hm). simpl in Hbw. split; [|done].
    intros ->. rewrite app_nil_r in Hbw. congruence.
Qed.

(** ** The container path never changes *)

Lemma mount_container_path key w r w' :
  mount key w = (r, w') → container_path (self w') = container_path (self w).
Proof.
  unfold mount. mstep. destruct (is_mounted (self w)); [by intros [= <- <-]|].
  destruct (mount_try (self w) key w) as [[e|p] w1] eqn:E1.
  - assert (container_path (self w1) = container_path (self w)) as Hcp.
    { apply mount_try_cases in E1 as [(e0 & _ & ->)|(_ & _ & ? & _)]; done. }
    unfold mount_except. munfold.
    destruct (temp_dir (self w1)) as [d0|]; simpl; [|by intros [= <- <-]].
    destruct (path_exists (disk w1) d0); [|by intros [= <- <-]].
    destruct (rmtree d0 (disk w1)); by intros [= <- <-].
  - intros [= <- <-].
    apply mount_try_cases in E1 as [(e0 & ? & _)|(_ & _ & ? & _)]; done.
Qed.

Lemma unmount_container_path w r w' :
  unmount w = (r, w') → container_path (self w') = container_path (self w).
Proof.
  unfold unmount. munfold. destruct (is_mounted (self w)); simpl; [|by intros [= <- <-]].
  destruct (temp_dir (self w)) as [d|]; simpl; [|by intros [= <- <-]].
  destruct (path_exists (disk w) d); [|by intros [= <- <-]].
  destruct (rmtree d (disk w)); by intros [= <- <-].
Qed.

Lemma add_file_container_path file_path key target w r w' :
  add_file file_path key target w = (r, w') →
  container_path (self w') = container_path (self w).
Proof.
  unfold add_file. mstep.
  destruct (path_exists (disk w) file_path); simpl; [|by intros [= <- <-]].
  destruct (is_mounted (self w)); simpl.
  - destruct (add_file_try file_path key target w) as [r1 w1] eqn:E1.
    intros [= <- <-]. apply add_file_try_keeps in E1 as [-> _]. done.
  - destruct (mount key w) as [[e|p] w1] eqn:E1;
      apply mount_container_path in E1; [by intros [= <- <-]|].
    destruct (add_file_try file_path key target w1) as [r2 w2] eqn:E2.
    apply add_file_try_keeps in E2 as [Hs2 _].
    destruct (unmount w2) as [[e|[]] w3] eqn:E3; apply unmount_container_path in E3;
      intros [= <- <-]; congruence.
Qed.


Section Fresh.

(** [mkdtemp] returns a name that did not exist. *)
Hypothesis mktemp_fresh : ∀ pre fs, fs !! mkdtemp_path pre fs = None.

Lemma mkdtemp_no_tree pre fs : fs_wf fs → no_tree (mkdtemp_path pre fs) fs.
Proof. intros Hwf. apply fs_wf_no_tree; [done | apply mkdtemp_path_ne | done]. Qed.



(** A returning [mount] returns the directory that [mkdtemp] picked, which
    is a directory on the new disk, and the object is mounted on it. *)
Lemma mount_returns key w p w' :
  is_mounted (self w) = false → mount key w = (inr p, w') →
  let d := mkdtemp_path "zero_file_share_" (disk w) in
  p = d
  ∧ self w' = {| container_path := container_path (self w);
                 temp_dir := Some d; is_mounted := true |}
  ∧ is_dir (disk w) tmpdir = true
  ∧ is_dir (disk w') d = true
  ∧ dirs_kept (<[d := Dir]> (disk w)) (disk w').
Proof.
  intros Hm. rewrite mount_unfold by done. unfold try_except.
  destruct (mount_try (self w) key w) as [[e1|p1] w1] eqn:E1.
  { unfold mount_except. munfold.
    destruct (temp_dir (self w1)); simpl; [|done].
    destruct (path_exists (disk w1) l); [|done].
    by destruct (rmtree l (disk w1)). }
  intros [= -> ->].
  apply mount_try_cases in E1 as [(e0 & ? & _)|(Htmp & Htd & Hcp & Hk & Hr)]; [done|].
  simpl in *. destruct Hr as [[[= ->] Hm']|(e0 & ? & _)]; [|done].
  split_and!; [done | | done | | done].
  - destruct (self w') as [cp td im]. simpl in *. congruence.
  - apply is_dir_lookup; [apply mkdtemp_path_ne|]. apply Hk, lookup_insert_eq.
Qed.

Lemma read_text_inr cp fs text :
  read_text cp fs = inr text → ∃ data, fs !! cp = Some (File data) ∧ text = string_of_list_byte data.
Proof.
  unfold read_text, read_bytes, lookup_node. destruct cp as [|c cp]; [done|].
  destruct (fs !! (c :: cp)) as [[data|]|]; [|done..]. intros [= <-]. by eexists.
Qed.



(** A returning [mount]: with a readable archive of valid, consistent
    names, [mount] returns the fresh directory and the tree below it is the
    unpacked archive. *)
Lemma mount_unpacks key w ms :
  let d := mkdtemp_path "zero_file_share_" (disk w) in
  fs_wf (disk w) → is_mounted (self w) = false → is_dir (disk w) tmpdir = true →
  stored_archive (container_path (self w)) key (disk w) = Some ms →
  consistent ms → Forall (λ m, m.1 ≠ [] ∧ Forall valid_name m.1) ms →
  ∃ fs', mount key w =
           (inr d, {| self := {| container_path := container_path (self w);
                                 temp_dir := Some d; is_mounted := true |};
                      disk := fs' |})
    ∧ fs_wf fs' ∧ unpacked d fs' ms ∧ same_outside d (disk w) fs'.
Proof.
  intros d Hwf Hm Htmp Har Hcons Hvalid.
  pose proof (mkdtemp_no_tree "zero_file_share_" _ Hwf) as Hnt. fold d in Hnt.
  assert (disk w !! d = None) as Hnone by (specialize (Hnt []); by rewrite app_nil_r in Hnt).
  assert (fs_wf (<[d := Dir]> (disk w))) as Hwf1.
  { apply fs_wf_insert; [done | apply mkdtemp_path_ne | by apply mkdtemp_path_valid | | by left].
    unfold d, mkdtemp_path. by rewrite parent_snoc. }
  assert (unpacked d (<[d := Dir]> (disk w)) []) as Hun.
  { split_and!.
    - apply lookup_insert_eq.
    - apply above_exist_mkdtemp; [done|]. unfold d, mkdtemp_path. by rewrite parent_snoc.
    - intros rel n Hrel. rewrite lookup_insert_ne by (symmetry; by apply app_ne_self).
      by rewrite Hnt.
    - intros m Hin. by apply not_elem_of_nil in Hin. }
  destruct (extractall_unpacks d ms [] ms
    {| self := {| container_path := container_path (self w); temp_dir := Some d;
                  is_mounted := is_mounted (self w) |};
       disk := <[d := Dir]> (disk w) |}) as (fs' & Hext & Hwf' & Hun');
    [done | done | done | intros x Hx; by apply not_elem_of_nil in Hx | done | done |].
  rewrite app_nil_r in Hun'. exists fs'.
  assert (mount key w =
    (inr d, {| self := {| container_path := container_path (self w);
                          temp_dir := Some d; is_mounted := true |};
               disk := fs' |})) as Hmount.
  { apply stored_archive_Some in Har as (text & data & Hr & Hdec & Htar).
    rewrite mount_unfold by done.
    unfold try_except, mount_try, mkdtemp, NamedTemporaryFile. munfold.
    rewrite Hr, Hdec, Htmp. simpl. fold d.
    rewrite (is_dir_insert_other _ _ _ _ Htmp) by congruence.
    rewrite Htar, Hext. done. }
  split_and!; [done..|].
  apply (mount_same_outside key w _ _ ms) in Hmount; try done.
  apply Forall_forall. intros m Hin. rewrite Forall_forall in Hvalid.
  destruct (Hvalid m Hin) as [_ Hv]. rewrite (resolve_valid _ _ Hv). by eexists.
Qed.



Section Roundtrip.

(** The contracts of the external libraries: what is encrypted with a key
    decrypts with it, and an archive that is written reads back. *)
Hypothesis cipher_roundtrip : ∀ data key,
  ∃ text, encrypt data key = inr text ∧ decrypt text key = inr data.
Hypothesis tar_roundtrip : ∀ members, tar_read (tar_write members) = inr members.

Lemma stored_archive_written (cp : path) (key text : string)
    (members : list (path * bytes)) (fs : FS) :
  cp ≠ [] → decrypt text key = inr (tar_write members) →
  fs !! cp = Some (File (list_byte_of_string text)) →
  stored_archive cp key fs = Some members.
Proof.
  intros Hcp Hdec Hf. unfold stored_archive, read_text, read_bytes, lookup_node.
  destruct cp; [done|]. rewrite Hf, string_of_list_byte_of_string, Hdec.
  by rewrite tar_roundtrip.
Qed.

Lemma create_empty_returns key w :
  is_dir (disk w) tmpdir = true →
  container_path (self w) ≠ [] →
  is_dir (disk w) (parent (container_path (self w))) = true →
  disk w !! container_path (self w) ≠ Some Dir →
  ∃ text, decrypt text key = inr (tar_write [])
    ∧ create_empty key w =
        (inr tt, {| self := self w;
                    disk := <[container_path (self w) := File (list_byte_of_string text)]>
                              (disk w) |}).
Proof.
  intros Htmp Hcp Hpar Hnd.
  destruct (cipher_roundtrip (tar_write []) key) as (text & Henc & Hdec).
  exists text. split; [done|]. unfold create_empty, NamedTemporaryFile. munfold.
  rewrite Htmp, Henc. unfold write_text. by rewrite write_bytes_ok.
Qed.

Lemma save_returns key w d data :
  fs_wf (disk w) → is_dir (disk w) tmpdir = true →
  is_mounted (self w) = true → temp_dir (self w) = Some d →
  disk w !! container_path (self w) = Some (File data) →
  ∃ text, decrypt text key = inr (tar_write (walk_files d (disk w)))
    ∧ save key w =
        (inr tt, {| self := self w;
                    disk := <[container_path (self w) := File (list_byte_of_string text)]>
                              (disk w) |}).
Proof.
  intros Hwf Htmp Hm Hd Hcp.
  destruct (fs_wf_lookup _ _ _ Hwf Hcp) as (Hne & _ & Hpar).
  destruct (cipher_roundtrip (tar_write (walk_files d (disk w))) key) as (text & Henc & Hdec).
  exists text. split; [done|]. unfold save, NamedTemporaryFile. munfold.
  rewrite Hm. simpl. rewrite Htmp, Hd. simpl. rewrite Henc. unfold write_text.
  rewrite write_bytes_ok; [done..|congruence].
Qed.

(** Sealing a mounted tree and mounting it again: [save] stores the archive
    of the regular files below the working tree, and after [unmount] a new
    [mount] returns a tree that is this archive unpacked. *)
Lemma remount key w d data :
  fs_wf (disk w) → is_dir (disk w) tmpdir = true →
  is_mounted (self w) = true → temp_dir (self w) = Some d →
  disk w !! d = Some Dir →
  ¬ d `prefix_of` tmpdir → ¬ d `prefix_of` container_path (self w) →
  disk w !! container_path (self w) = Some (File data) →
  ∃ w1 w2 d' fs',
    save key w = (inr tt, w1)
    ∧ stored_archive (container_path (self w)) key (disk w1) = Some (walk_files d (disk w))
    ∧ unmount w1 = (inr tt, w2)
    ∧ mount key w2 =
        (inr d', {| self := {| container_path := container_path (self w);
                               temp_dir := Some d'; is_mounted := true |};
                    disk := fs' |})
    ∧ fs_wf fs' ∧ unpacked d' fs' (walk_files d (disk w)).
Proof.
  intros Hwf Htmp Hm Hd Hdir Hdtmp Hdcp Hcp.
  set (cp := container_path (self w)) in *. set (ms := walk_files d (disk w)).
  destruct (fs_wf_lookup _ _ _ Hwf Hcp) as (Hcpne & Hcpv & Hcppar).
  destruct (fs_wf_lookup _ _ _ Hwf Hdir) as (Hdne & _ & _).
  destruct (save_returns key w d data) as (text & Hdec & Hsave); try done.
  fold cp ms in Hdec, Hsave.
  set (fs1 := <[cp := File (list_byte_of_string text)]> (disk w)) in *.
  assert (fs_wf fs1) as Hwf1 by (apply fs_wf_insert; [done..|right; congruence]).
  assert (is_dir fs1 d = true) as Hdir1.
  { apply is_dir_insert_other; [by apply is_dir_lookup | congruence]. }
  set (fs2 := filter (λ kv : path * node, ¬ d `prefix_of` kv.1) fs1).
  assert (rmtree d fs1 = inr fs2) as Hrm by (by apply rmtree_ok).
  assert (fs_wf fs2) as Hwf2 by (by eapply fs_wf_rmtree).
  assert (is_dir fs2 tmpdir = true) as Htmp2.
  { destruct (decide (tmpdir = [])) as [Hnil|Hnn]; [by rewrite Hnil|].
    apply is_dir_lookup; [done|]. apply (rmtree_lookup _ _ _ _ _ Hrm). split; [|done].
    apply is_dir_lookup; [done|]. apply is_dir_insert_other; [done | congruence]. }
  assert (stored_archive cp key fs2 = Some ms) as Har2.
  { apply (stored_archive_written cp key text); [done..|].
    apply (rmtree_lookup _ _ _ _ _ Hrm). split; [apply lookup_insert_eq | done]. }
  set (w2 := {| self := {| container_path := cp; temp_dir := None; is_mounted := false |};
                disk := fs2 |}).
  destruct (mount_unpacks key w2 ms) as (fs' & Hmount & Hwf' & Hun & _);
    [done | done | done | done | by apply walk_files_consistent
    | by apply walk_files_valid |].
  eexists _, w2, _, fs'. split; [exact Hsave|]. simpl. split_and!; [| |done..].
  - apply (stored_archive_written cp key text); [done..|]. apply lookup_insert_eq.
  - by rewrite (unmount_mounted {| self := self w; disk := fs1 |} d).
Qed.

Lemma sorted_nil : sorted [] = [].
Proof. reflexivity. Qed.

Lemma sorted_singleton s : sorted [s] = [s].
Proof. reflexivity. Qed.

(** C6: on a well-formed disk with a temporary directory, for a container
    path that can be created, every key, every valid file name and every
    content, the end-to-end scenario returns: the first listing is empty,
    the listing after the second mount is exactly the file name, and the
    file read there has the content that was put in. *)
Theorem end_to_end_round_trip (key file : string) (content : bytes) (cp : path) (fs : FS) :
  fs_wf fs → is_dir fs tmpdir = true → valid_name file →
  cp ≠ [] → Forall valid_name cp → is_dir fs (parent cp) = true → fs !! cp ≠ Some Dir →
  ∃ w', end_to_end key file content {| self := new_SecureContainer cp; disk := fs |}
        = (inr ([], [file], content), w').
Proof.
  intros Hwf Htmp Hfile Hcp Hcpv Hcppar Hcpnd.
  (* create_empty *)
  destruct (create_empty_returns key {| self := new_SecureContainer cp; disk := fs |})
    as (text0 & Hdec0 & Hcreate); [done..|]. simpl in Hcreate.
  set (fs1 := <[cp := File (list_byte_of_string text0)]> fs) in *.
  assert (fs_wf fs1) as Hwf1 by (apply fs_wf_insert; auto).
  assert (is_dir fs1 tmpdir = true) as Htmp1 by (by apply is_dir_insert_other).
  assert (fs1 !! cp = Some (File (list_byte_of_string text0))) as Hcp1
    by apply lookup_insert_eq.
  (* the first mount *)
  destruct (mount_unpacks key {| self := new_SecureContainer cp; disk := fs1 |} [])
    as (fs2 & Hmount1 & Hwf2 & Hun2 & Hout2);
    [done | done | done | by apply (stored_archive_written cp key text0)
    | by intros m m' Hm%not_elem_of_nil | done |].
  simpl in Hmount1, Hun2, Hout2. set (d := mkdtemp_path "zero_file_share_" fs1) in *.
  assert (¬ d `prefix_of` cp) as Hdcp.
  { intros [k Hk]. pose proof (mkdtemp_no_tree "zero_file_share_" _ Hwf1 k) as Hnt.
    fold d in Hnt. rewrite <- Hk in Hnt. congruence. }
  assert (walk_files d fs2 = []) as Hwalk2.
  { apply elem_of_nil_eq. intros x Hx%(walk_files_unpacked _ _ _ _ Hun2).
    by apply not_elem_of_nil in Hx. }
  destruct Hun2 as (Hd2 & Habove2 & Hfw2 & _).
  destruct (fs_wf_lookup _ _ _ Hwf2 Hd2) as (Hdne & Hdv & _).
  (* the file is put into the tree *)
  assert (fs2 !! (d ++ [file]) ≠ Some Dir) as Hnd2.
  { intros Hdir. destruct (Hfw2 [file] _ ltac:(done) Hdir) as (m & Hm%not_elem_of_nil & _).
    done. }
  set (fs3 := <[d ++ [file] := File content]> fs2).
  assert (write_bytes (d ++ [file]) content fs2 = inr fs3) as Hwrite.
  { apply write_bytes_ok; [by destruct d | | done].
    rewrite parent_snoc. by apply is_dir_lookup. }
  assert (fs_wf fs3) as Hwf3.
  { eapply fs_wf_write_bytes; [done | | done]. apply Forall_app. by split; [|constructor]. }
  assert (walk_files d fs3 = [([file], content)]) as Hwalk3.
  { apply NoDup_singleton_eq; [apply NoDup_walk_files|]. intros [rel c].
    rewrite elem_of_walk_files. unfold fs3. split.
    - intros [Hrel Hf]. destruct (decide (rel = [file])) as [->|Hne].
      + rewrite lookup_insert_eq in Hf. congruence.
      + rewrite lookup_insert_ne in Hf by (intros Heq; by apply app_inv_head in Heq).
        by apply Hfw2, not_elem_of_nil in Hf.
    - intros [= -> ->]. split; [done | apply lookup_insert_eq]. }
  (* save, unmount and the second mount *)
  destruct (remount key
      {| self := {| container_path := cp; temp_dir := Some d; is_mounted := true |};
         disk := fs3 |} d (list_byte_of_string text0))
    as (w4 & w5 & d' & fs' & Hsave & _ & Hunmount & Hmount2 & _ & Hun'); simpl.
  { done. }
  { apply is_dir_insert_other; [|done].
    destruct (decide (tmpdir = [])) as [Hnil|Hnn]; [by rewrite Hnil|].
    apply is_dir_lookup; [done|]. rewrite Hout2 by apply mkdtemp_path_not_above.
    by apply is_dir_lookup. }
  { done. }
  { done. }
  { unfold fs3. rewrite lookup_insert_ne; [done|]. apply app_ne_self. done. }
  { apply mkdtemp_path_not_above. }
  { done. }
  { unfold fs3. rewrite lookup_insert_ne
      by (intros Heq; apply Hdcp; rewrite <- Heq; by eexists).
    by rewrite Hout2. }
  simpl in *. rewrite Hwalk3 in Hun'.
  assert (walk_files d' fs' = [([file], content)]) as Hwalk'.
  { apply NoDup_singleton_eq; [apply NoDup_walk_files|]. intros x.
    rewrite (walk_files_unpacked _ _ _ _ Hun'). apply list_elem_of_singleton. }
  assert (read_bytes (d' ++ [file]) fs' = inr content) as Hread.
  { destruct Hun' as (_ & _ & _ & Hbw). specialize (Hbw ([file], content)). simpl in Hbw.
    unfold read_bytes, lookup_node. destruct (d' ++ [file]) eqn:E; [by destruct d'|].
    rewrite Hbw; [done | left]. }
  (* the run *)
  eexists. unfold end_to_end. mstep.
  rewrite Hcreate, Hmount1.
  rewrite (list_files_mounted _ d) by done. simpl. rewrite Hwalk2.
  unfold fs_write at 1. simpl. rewrite Hwrite. fold fs3.
  rewrite Hsave, Hunmount, Hmount2.
  rewrite (list_files_mounted _ d') by done. simpl. rewrite Hwalk', Hread.
  reflexivity.
Qed.


(** C10: [save] packs the regular files below the working tree and nothing
    else; a directory below which there is no regular file is above no
    member of the archive, and after [unmount] and a new [mount] nothing
    exists at its place in the new working tree. *)
Theorem empty_directories_dropped key w d data rel :
  fs_wf (disk w) → is_dir (disk w) tmpdir = true →
  is_mounted (self w) = true → temp_dir (self w) = Some d →
  disk w !! d = Some Dir →
  ¬ d `prefix_of` tmpdir → ¬ d `prefix_of` container_path (self w) →
  disk w !! container_path (self w) = Some (File data) →
  rel ≠ [] → disk w !! (d ++ rel) = Some Dir →
  (∀ r data', disk w !! (d ++ rel ++ r) ≠ Some (File data')) →
  ∃ w1 members w2 d' w',
    save key w = (inr tt, w1)
    ∧ stored_archive (container_path (self w)) key (disk w1) = Some members
    ∧ (∀ m, m ∈ members ↔ m.1 ≠ [] ∧ disk w !! (d ++ m.1) = Some (File m.2))
    ∧ (∀ m, m ∈ members → ¬ rel `prefix_of` m.1)
    ∧ unmount w1 = (inr tt, w2)
    ∧ mount key w2 = (inr d', w')
    ∧ is_mounted (self w') = true ∧ temp_dir (self w') = Some d'
    ∧ disk w' !! (d' ++ rel) = None.
Proof.
  intros Hwf Htmp Hm Hd Hdir Hdtmp Hdcp Hcp Hrel Hempty Hnofile.
  destruct (remount key w d data)
    as (w1 & w2 & d' & fs' & Hsave & Har & Hunm & Hre & Hwf' & Hun); try done.
  assert (∀ m, m ∈ walk_files d (disk w) → ¬ rel `prefix_of` m.1) as Hnot.
  { intros [r c] [_ Hf]%elem_of_walk_files [k Hk]. simpl in *. subst r.
    by apply (Hnofile k c). }
  eexists w1, _, w2, d', _. split_and!; [done | done | | done | done | done | done | done |].
  - intros [r c]. apply elem_of_walk_files.
  - simpl. destruct (fs' !! (d' ++ rel)) as [[c|]|] eqn:E; [| |done]; exfalso.
    + destruct Hun as (_ & _ & Hfw & _). specialize (Hfw rel _ Hrel E). simpl in Hfw.
      apply elem_of_walk_files in Hfw as [_ Hf]. congruence.
    + destruct Hun as (_ & _ & Hfw & _). destruct (Hfw rel _ Hrel E) as (m & Hin & Hpre & _).
      by apply (Hnot m).
Qed.

(** ** Further properties of the methods *)





Global Instance str_le_total : Total str_le.
Proof. intros a b. apply String.leb_total. Qed.

(** X3: on a mounted object [list_files] changes nothing and returns, in
    nondecreasing order, the relative paths of the regular files below the
    working tree: a string is listed exactly when it is the path of such a
    file. *)
Theorem list_files_sorted_complete w d :
  is_mounted (self w) = true → temp_dir (self w) = Some d →
  ∃ l, list_files w = (inr l, w)
    ∧ Sorted str_le l
    ∧ ∀ s, s ∈ l ↔ ∃ rel data,
        rel ≠ [] ∧ disk w !! (d ++ rel) = Some (File data) ∧ s = str_rel rel.
Proof.
  intros Hm Hd. eexists. split; [by apply list_files_mounted|].
  split; [apply Sorted_merge_sort, _|]. intros s. unfold sorted.
  rewrite merge_sort_Permutation, list_elem_of_fmap. split.
  - intros ([rel data] & -> & [Hrel Hf]%elem_of_walk_files). by exists rel, data.
  - intros (rel & data & Hrel & Hf & ->). exists (rel, data). split; [done|].
    by apply elem_of_walk_files.
Qed.

Lemma unpacked_files d fs ms rel c :
  unpacked d fs ms → rel ≠ [] → fs !! (d ++ rel) = Some (File c) ↔ (rel, c) ∈ ms.
Proof.
  intros (Hd & _ & Hfw & Hbw) Hrel. split.
  - intros Hf. exact (Hfw rel _ Hrel Hf).
  - intros Hm. exact (Hbw _ Hm).
Qed.

Lemma unpacked_dirs d fs ms rel :
  fs_wf fs → unpacked d fs ms → rel ≠ [] →
  fs !! (d ++ rel) = Some Dir ↔ ∃ r c, r ≠ [] ∧ (rel ++ r, c) ∈ ms.
Proof.
  intros Hwf (Hd & _ & Hfw & Hbw) Hrel. split.
  - intros Hdir. destruct (Hfw rel _ Hrel Hdir) as ([name c] & Hm & [r Hr] & Hne).
    simpl in *. subst name. exists r, c. split; [|done]. intros ->.
    by rewrite app_nil_r in Hne.
  - intros (r & c & Hr & Hm). specialize (Hbw _ Hm). simpl in Hbw.
    rewrite app_assoc in Hbw. apply is_dir_lookup; [by destruct d, rel|].
    eapply fs_wf_above; eauto.
Qed.

(** X5: the round trip of a whole tree.  For a mounted object in order
    (well-formed disk, temporary directory, working tree a directory that
    holds neither the temporary directory nor the container file), [save],
    [unmount] and a new [mount] all return, and the new working tree has
    the regular files of the old one, each at the same relative path with
    the same contents, and no other; its directories are those above a
    regular file. *)
Theorem save_remount_round_trip key w d data :
  fs_wf (disk w) → is_dir (disk w) tmpdir = true →
  is_mounted (self w) = true → temp_dir (self w) = Some d →
  disk w !! d = Some Dir →
  ¬ d `prefix_of` tmpdir → ¬ d `prefix_of` container_path (self w) →
  disk w !! container_path (self w) = Some (File data) →
  ∃ w1 w2 d' w',
    save key w = (inr tt, w1)
    ∧ unmount w1 = (inr tt, w2)
    ∧ mount key w2 = (inr d', w')
    ∧ is_mounted (self w') = true ∧ temp_dir (self w') = Some d'
    ∧ (∀ rel c, rel ≠ [] →
         disk w' !! (d' ++ rel) = Some (File c) ↔ disk w !! (d ++ rel) = Some (File c))
    ∧ (∀ rel, rel ≠ [] →
         disk w' !! (d' ++ rel) = Some Dir
         ↔ ∃ r c, r ≠ [] ∧ disk w !! (d ++ rel ++ r) = Some (File c)).
Proof.
  intros Hwf Htmp Hm Hd Hdir Hdtmp Hdcp Hcp.
  destruct (remount key w d data)
    as (w1 & w2 & d' & fs' & Hsave & _ & Hunm & Hre & Hwf' & Hun); try done.
  eexists w1, w2, d', _. split_and!; [done..| |]; simpl.
  - intros rel c Hrel. rewrite (unpacked_files _ _ _ _ _ Hun Hrel), elem_of_walk_files.
    tauto.
  - intros rel Hrel. rewrite (unpacked_dirs _ _ _ _ Hwf' Hun Hrel).
    split; intros (r & c & Hr & Hf); exists r, c; (split; [done|]).
    + by apply elem_of_walk_files in Hf as [_ ?].
    + apply elem_of_walk_files. split; [by destruct rel | done].
Qed.

(** X6: [mount] of a container whose archive can be read and has valid
    member names, none the start of another, returns the directory that
    [mkdtemp] picked; the object is mounted on it, the regular files below
    it are exactly the members of the archive, and nothing outside it has
    changed. *)
Theorem mount_materialises_archive key w ms :
  let d := mkdtemp_path "zero_file_share_" (disk w) in
  fs_wf (disk w) → is_mounted (self w) = false → is_dir (disk w) tmpdir = true →
  stored_archive (container_path (self w)) key (disk w) = Some ms →
  consistent ms → Forall (λ m, m.1 ≠ [] ∧ Forall valid_name m.1) ms →
  ∃ w', mount key w = (inr d, w')
    ∧ self w' = {| container_path := container_path (self w);
                   temp_dir := Some d; is_mounted := true |}
    ∧ disk w' !! d = Some Dir
    ∧ (∀ rel c, rel ≠ [] → disk w' !! (d ++ rel) = Some (File c) ↔ (rel, c) ∈ ms)
    ∧ same_outside d (disk w) (disk w').
Proof.
  intros d Hwf Hm Htmp Har Hcons Hvalid.
  destruct (mount_unpacks key w ms) as (fs' & Hmount & Hwf' & Hun & Hout); try done.
  eexists. split; [exact Hmount|]. simpl. split_and!; [done | | | done].
  - by destruct Hun as (? & _).
  - intros rel c Hrel. by apply unpacked_files.
Qed.


Lemma unmount_returns_state w w' :
  unmount w = (inr tt, w') →
  is_mounted (self w') = false ∧ (is_mounted (self w) = true → temp_dir (self w') = None).
Proof.
  unfold unmount. munfold. destruct (is_mounted (self w)) eqn:Hm; simpl.
  2:{ intros [= <-]. by rewrite Hm. }
  destruct (temp_dir (self w)) as [d|]; simpl; [|by intros [= <-]].
  destruct (path_exists (disk w) d); [|by intros [= <-]].
  destruct (rmtree d (disk w)); [done | by intros [= <-]].
Qed.

Lemma add_file_then_mount_run file_path key target w ms content :
  let dest := add_file_dest file_path target in
  fs_wf (disk w) → is_mounted (self w) = false → is_dir (disk w) tmpdir = true →
  stored_archive (container_path (self w)) key (disk w) = Some ms →
  consistent ms → Forall (λ m, m.1 ≠ [] ∧ Forall valid_name m.1) ms →
  disk w !! file_path = Some (File content) →
  Forall valid_name dest →
  (∀ m, m ∈ ms → m.1 `prefix_of` dest ∨ dest `prefix_of` m.1 → m.1 = dest) →
  ∃ w1 d' w2,
    add_file file_path key target w = (inr tt, w1)
    ∧ is_mounted (self w1) = false ∧ temp_dir (self w1) = None
    ∧ mount key w1 = (inr d', w2)
    ∧ disk w2 !! (d' ++ dest) = Some (File content)
    ∧ (∀ rel c, rel ≠ [] → rel ≠ dest →
         disk w2 !! (d' ++ rel) = Some (File c) ↔ (rel, c) ∈ ms).
Proof.
  intros dest Hwf Hm Htmp Har Hcons Hvalid Hsrc Hdv Hfree.
  assert (dest ≠ []) as Hdne by (unfold dest, add_file_dest; by destruct target as [[|]|]).
  set (cp := container_path (self w)) in *.
  (* the mount *)
  destruct (mount_unpacks key w ms) as (fs1 & Hmount & Hwf1 & Hun1 & Hout1); try done.
  fold cp in Hmount. set (d := mkdtemp_path "zero_file_share_" (disk w)) in *.
  pose proof (mkdtemp_no_tree "zero_file_share_" _ Hwf) as Hnt. fold d in Hnt.
  assert (∀ q n, disk w !! q = Some n → ¬ d `prefix_of` q) as Hnotin.
  { intros q n Hq [k ->]. by rewrite Hnt in Hq. }
  destruct (stored_archive_Some _ _ _ _ Har) as (? & _ & (cdata & Hcp & _)%read_text_inr & _).
  fold cp in Hcp.
  pose proof Hun1 as (Hd1 & Habove1 & Hfw1 & Hbw1).
  destruct (fs_wf_lookup _ _ _ Hwf1 Hd1) as (Hdn & Hdvalid & _).
  (* the directories above the destination *)
  set (upper := d ++ parent dest).
  assert (Forall valid_name (parent dest)) as Hpv.
  { destruct (parent_prefix dest) as [k Hk]. rewrite Hk in Hdv.
    by apply Forall_app in Hdv as [? _]. }
  destruct (makedirs_from_ok [] upper fs1) as [fs2 Hmk].
  { intros r c Hr [Hrd|(r' & Hr' & -> & Hrp)]%prefix_app_cases Hf; simpl in *.
    - by rewrite (Habove1 r Hr Hrd) in Hf.
    - specialize (Hfw1 r' _ Hr' Hf). simpl in Hfw1.
      assert (r' = dest) as ->.
      { apply (Hfree _ Hfw1). left. simpl. etrans; [done | apply parent_prefix]. }
      by apply (parent_strict dest). }
  assert (fs_wf fs2) as Hwf2.
  { apply (fs_wf_makedirs_from [] upper fs1); [done | done | | done].
    simpl. by apply Forall_app. }
  assert (∀ q n, fs1 !! q = Some n → fs2 !! q = Some n) as Hkeep2
    by (intros q n; by eapply makedirs_from_keeps).
  assert (fs2 !! upper = Some Dir) as Hup2.
  { apply (makedirs_from_made [] upper _ _ upper Hmk); [by destruct d | done]. }
  assert (∀ rel c, fs2 !! (d ++ rel) = Some (File c) ↔ fs1 !! (d ++ rel) = Some (File c))
    as Hfiles2.
  { intros rel c. split; [|apply Hkeep2]. intros Hf.
    by destruct (makedirs_from_new _ _ _ _ _ _ Hmk Hf) as [?|(? & _)]. }
  (* the copy *)
  assert (fs2 !! (d ++ dest) ≠ Some Dir) as Hnd2.
  { intros Hdir. destruct (makedirs_from_new _ _ _ _ _ _ Hmk Hdir)
      as [Hold|(_ & r & _ & Hpre & Heq)]; simpl in *.
    - destruct (Hfw1 dest _ Hdne Hold) as (m & Hin & Hpre & Hneq).
      apply Hneq. symmetry. apply (Hfree _ Hin). by right.
    - subst r. apply prefix_app_inv in Hpre. by apply (parent_strict dest). }
  assert (fs2 !! file_path = Some (File content)) as Hsrc2.
  { apply Hkeep2. rewrite Hout1; [done | by eapply Hnotin]. }
  set (fs3 := <[d ++ dest := File content]> fs2).
  assert (copy2 file_path (d ++ dest) fs2 = inr fs3) as Hcopy.
  { unfold copy2. assert (is_dir fs2 (d ++ dest) = false) as ->.
    { destruct (is_dir fs2 (d ++ dest)) eqn:E; [|done].
      apply is_dir_lookup in E; [done | by destruct d]. }
    rewrite decide_False.
    2:{ intros Heq. apply (Hnotin _ _ Hsrc). rewrite Heq. by eexists. }
    unfold read_bytes, lookup_node.
    destruct (fs_wf_lookup _ _ _ Hwf Hsrc) as (Hsne & _).
    destruct file_path; [done|]. rewrite Hsrc2.
    apply write_bytes_ok; [by destruct d | | done].
    rewrite (parent_app _ _ Hdne). by apply is_dir_lookup; [by destruct d|]. }
  assert (fs_wf fs3) as Hwf3.
  { eapply (fs_wf_write_bytes (d ++ dest)); [exact Hwf2 | by apply Forall_app|].
    apply write_bytes_ok; [by destruct d | | done].
    rewrite (parent_app _ _ Hdne). by apply is_dir_lookup; [by destruct d|]. }
  (* save, unmount and the later mount *)
  assert (¬ d `prefix_of` cp) as Hdcp by (by eapply Hnotin).
  destruct (remount key
      {| self := {| container_path := cp; temp_dir := Some d; is_mounted := true |};
         disk := fs3 |} d cdata)
    as (w4 & w5 & d' & fs' & Hsave & _ & Hunmount & Hmount2 & _ & Hun'); simpl.
  { done. }
  { apply is_dir_insert_other; [|done].
    destruct (decide (tmpdir = [])) as [Hnil|Hnn]; [by rewrite Hnil|].
    apply is_dir_lookup; [done|]. apply Hkeep2.
    rewrite Hout1 by apply mkdtemp_path_not_above. by apply is_dir_lookup. }
  { done. }
  { done. }
  { unfold fs3. rewrite lookup_insert_ne by (by apply app_ne_self). by apply Hkeep2. }
  { apply mkdtemp_path_not_above. }
  { done. }
  { unfold fs3. rewrite lookup_insert_ne
      by (intros Heq; apply Hdcp; rewrite <- Heq; by eexists).
    apply Hkeep2. by rewrite Hout1. }
  simpl in *.
  pose proof (save_keeps _ _ _ _ Hsave) as [Hs4 _]. simpl in Hs4.
  destruct (unmount_returns_state _ _ Hunmount) as [Hm5 Htd5].
  exists w5, d', {| self := {| container_path := cp; temp_dir := Some d';
                               is_mounted := true |}; disk := fs' |}.
  split_and!; [ | done | by apply Htd5; rewrite Hs4 | | |].
  - unfold add_file. mstep.
    assert (path_exists (disk w) file_path = true) as ->.
    { unfold path_exists, lookup_node. destruct file_path; [done | by rewrite Hsrc]. }
    simpl. rewrite Hm. simpl. rewrite Hmount. unfold add_file_try. mstep.
    assert (match target with
            | Some (c :: t) => resolve d (c :: t)
            | _ => resolve d [name file_path]
            end = d ++ dest) as ->.
    { unfold dest, add_file_dest in *. destruct target as [[|c t]|]; by apply resolve_valid. }
    rewrite (parent_app _ _ Hdne). fold upper.
    unfold fs_write at 1. simpl. unfold makedirs. rewrite Hmk.
    unfold fs_write at 1. simpl. rewrite Hcopy. fold fs3.
    by rewrite Hsave, Hunmount.
  - destruct (self w5) as [cp5 td5 m5] eqn:E5.
    assert (cp5 = cp) as ->.
    { pose proof (f_equal container_path E5) as Hc. simpl in Hc. rewrite <- Hc.
      clear -Hunmount Hs4. revert Hunmount. unfold unmount. munfold.
      destruct (is_mounted (self w4)); simpl; [|by intros [= <-]; rewrite Hs4].
      destruct (temp_dir (self w4)) as [d0|]; simpl; [|by intros [= <-]; rewrite Hs4].
      destruct (path_exists (disk w4) d0); [|by intros [= <-]; rewrite Hs4].
      destruct (rmtree d0 (disk w4)); [done | by intros [= <-]; rewrite Hs4]. }
    exact Hmount2.
  - simpl. apply (unpacked_files _ _ _ _ _ Hun' Hdne), elem_of_walk_files.
    split; [done | apply lookup_insert_eq].
  - intros rel c Hrel Hneq. simpl.
    rewrite (unpacked_files _ _ _ _ _ Hun' Hrel), elem_of_walk_files.
    unfold fs3. rewrite lookup_insert_ne by (intros Heq; by apply app_inv_head in Heq).
    rewrite Hfiles2, (unpacked_files _ _ _ _ _ Hun1 Hrel). tauto.
Qed.

(** X7: [add_file] and a later [mount].  On an object that is not mounted,
    whose container holds a readable archive with valid member names, for a
    source that is a regular file and a destination of valid names that no
    member lies above or below, [add_file] returns with the object not
    mounted, and a following [mount] returns a working tree that has the
    source's contents at the destination and, at every other relative path,
    exactly the regular files of the archive. *)
Theorem add_file_then_mount file_path key target w ms content :
  let dest := add_file_dest file_path target in
  fs_wf (disk w) → is_mounted (self w) = false → is_dir (disk w) tmpdir = true →
  stored_archive (container_path (self w)) key (disk w) = Some ms →
  consistent ms → Forall (λ m, m.1 ≠ [] ∧ Forall valid_name m.1) ms →
  disk w !! file_path = Some (File content) →
  Forall valid_name dest →
  (∀ m, m ∈ ms → m.1 `prefix_of` dest ∨ dest `prefix_of` m.1 → m.1 = dest) →
  ∃ w1 d' w2,
    add_file file_path key target w = (inr tt, w1)
    ∧ is_mounted (self w1) = false ∧ temp_dir (self w1) = None
    ∧ mount key w1 = (inr d', w2)
    ∧ disk w2 !! (d' ++ dest) = Some (File content)
    ∧ (∀ rel c, rel ≠ [] → rel ≠ dest →
         disk w2 !! (d' ++ rel) = Some (File c) ↔ (rel, c) ∈ ms).
Proof. exact (add_file_then_mount_run file_path key target w ms content). Qed.


(** ** The commands *)




(** X10: the [add] command and a later [mount].  For a container with a
    readable archive of valid member names, a source that is a regular file
    and a destination that no member lies above or below, the command
    returns, and a new object that mounts the container finds the source's
    contents at the destination and, at every other relative path, exactly
    the regular files of the archive. *)
Theorem cli_add_file_then_mount (args_container args_file : path)
    (args_target : option (list string)) (key : string) (fs : FS)
    (ms : list (path * bytes)) (content : bytes) :
  let dest := add_file_dest args_file args_target in
  fs_wf fs → is_dir fs tmpdir = true →
  stored_archive args_container key fs = Some ms →
  consistent ms → Forall (λ m, m.1 ≠ [] ∧ Forall valid_name m.1) ms →
  fs !! args_file = Some (File content) →
  Forall valid_name dest →
  (∀ m, m ∈ ms → m.1 `prefix_of` dest ∨ dest `prefix_of` m.1 → m.1 = dest) →
  ∃ fs' d' w2,
    Cli.add_file args_container args_file args_target key fs = (Returned, fs')
    ∧ mount key {| self := new_SecureContainer args_container; disk := fs' |} = (inr d', w2)
    ∧ disk w2 !! (d' ++ dest) = Some (File content)
    ∧ (∀ rel c, rel ≠ [] → rel ≠ dest →
         disk w2 !! (d' ++ rel) = Some (File c) ↔ (rel, c) ∈ ms).
Proof.
  intros dest Hwf Htmp Har Hcons Hvalid Hsrc Hdv Hfree.
  destruct (add_file_then_mount_run args_file key args_target
              {| self := new_SecureContainer args_container; disk := fs |} ms content)
    as (w1 & d' & w2 & Hadd & Hm1 & Htd1 & Hmount & Hfile & Hothers); try done.
  pose proof (add_file_container_path _ _ _ _ _ _ Hadd) as Hcp1. simpl in Hcp1.
  assert (w1 = {| self := new_SecureContainer args_container; disk := disk w1 |}) as Hw1.
  { destruct w1 as [[cp td m] fs1]. simpl in *. by subst. }
  exists (disk w1), d', w2. split_and!; [|by rewrite <- Hw1|done..].
  unfold Cli.add_file.
  destruct (stored_archive_Some _ _ _ _ Har) as (? & _ & (cdata & Hc & _)%read_text_inr & _).
  assert (path_exists fs args_container = true) as ->.
  { unfold path_exists, lookup_node. destruct args_container; [done | by rewrite Hc]. }
  assert (path_exists fs args_file = true) as ->.
  { unfold path_exists, lookup_node. destruct args_file; [done | by rewrite Hsrc]. }
  simpl. by rewrite Hadd.
Qed.



(** X16: [add_file] on a mounted object.  For an object in order, a source
    that is a regular file other than the destination, and a destination of
    valid names with no regular file above it and no directory at it,
    [add_file] returns and leaves the object as it was, mounted on the same
    tree; the destination holds the source's contents, the other regular
    files of the tree are as before, and the container now holds the
    archive of exactly the regular files of the tree. *)
Theorem add_file_mounted file_path key target w d content cdata :
  let dest := add_file_dest file_path target in
  fs_wf (disk w) → is_dir (disk w) tmpdir = true →
  is_mounted (self w) = true → temp_dir (self w) = Some d →
  disk w !! d = Some Dir →
  disk w !! container_path (self w) = Some (File cdata) →
  ¬ d `prefix_of` container_path (self w) →
  disk w !! file_path = Some (File content) → file_path ≠ d ++ dest →
  Forall valid_name dest →
  (∀ r c, r ≠ [] → r `prefix_of` parent dest → disk w !! (d ++ r) ≠ Some (File c)) →
  disk w !! (d ++ dest) ≠ Some Dir →
  ∃ w' ms,
    add_file file_path key target w = (inr tt, w')
    ∧ self w' = self w
    ∧ disk w' !! (d ++ dest) = Some (File content)
    ∧ (∀ rel c, rel ≠ dest →
         disk w' !! (d ++ rel) = Some (File c) ↔ disk w !! (d ++ rel) = Some (File c))
    ∧ stored_archive (container_path (self w)) key (disk w') = Some ms
    ∧ (∀ rel c, (rel, c) ∈ ms ↔ rel ≠ [] ∧ disk w' !! (d ++ rel) = Some (File c)).
Proof.
  intros dest Hwf Htmp Hm Hd Hdir Hcp Hdcp Hsrc Hsd Hdv Hup Hnd.
  assert (dest ≠ []) as Hdne by (unfold dest, add_file_dest; by destruct target as [[|]|]).
  set (cp := container_path (self w)) in *.
  destruct (fs_wf_lookup _ _ _ Hwf Hdir) as (Hdn & Hdvalid & _).
  pose proof (fs_wf_above_exist _ _ Hwf Hdir) as Habove.
  set (upper := d ++ parent dest).
  assert (Forall valid_name (parent dest)) as Hpv.
  { destruct (parent_prefix dest) as [k Hk]. rewrite Hk in Hdv.
    by apply Forall_app in Hdv as [? _]. }
  destruct (makedirs_from_ok [] upper (disk w)) as [fs2 Hmk].
  { intros r c Hr [Hrd|(r' & Hr' & -> & Hrp)]%prefix_app_cases Hf; simpl in *.
    - by rewrite (Habove r Hr Hrd) in Hf.
    - by apply (Hup r' c). }
  assert (fs_wf fs2) as Hwf2.
  { apply (fs_wf_makedirs_from [] upper (disk w)); [done | done | | done].
    simpl. by apply Forall_app. }
  assert (∀ q n, disk w !! q = Some n → fs2 !! q = Some n) as Hkeep2
    by (intros q n; by eapply makedirs_from_keeps).
  assert (fs2 !! upper = Some Dir) as Hup2.
  { apply (makedirs_from_made [] upper _ _ upper Hmk); [by destruct d | done]. }
  assert (∀ q c, fs2 !! q = Some (File c) ↔ disk w !! q = Some (File c)) as Hfiles2.
  { intros q c. split; [|apply Hkeep2]. intros Hf.
    by destruct (makedirs_from_new _ _ _ _ _ _ Hmk Hf) as [?|(? & _)]. }
  assert (fs2 !! (d ++ dest) ≠ Some Dir) as Hnd2.
  { intros Hdir2. destruct (makedirs_from_new _ _ _ _ _ _ Hmk Hdir2)
      as [Hold|(_ & r & _ & Hpre & Heq)]; simpl in *; [done|].
    subst r. apply prefix_app_inv in Hpre. by apply (parent_strict dest). }
  assert (is_dir fs2 (parent (d ++ dest)) = true) as Hpar2.
  { rewrite (parent_app _ _ Hdne). by apply is_dir_lookup; [by destruct d|]. }
  set (fs3 := <[d ++ dest := File content]> fs2).
  assert (copy2 file_path (d ++ dest) fs2 = inr fs3) as Hcopy.
  { unfold copy2. assert (is_dir fs2 (d ++ dest) = false) as ->.
    { destruct (is_dir fs2 (d ++ dest)) eqn:E; [|done].
      apply is_dir_lookup in E; [done | by destruct d]. }
    rewrite decide_False by done.
    unfold read_bytes, lookup_node.
    destruct (fs_wf_lookup _ _ _ Hwf Hsrc) as (Hsne & _).
    destruct file_path; [done|]. rewrite (Hkeep2 _ _ Hsrc).
    apply write_bytes_ok; [by destruct d | done | done]. }
  assert (fs_wf fs3) as Hwf3.
  { eapply (fs_wf_write_bytes (d ++ dest)); [exact Hwf2 | by apply Forall_app|].
    apply write_bytes_ok; [by destruct d | done | done]. }
  assert (cp ≠ d ++ dest) as Hcpd by (intros Heq; apply Hdcp; exists dest; exact Heq).
  destruct (save_returns key {| self := self w; disk := fs3 |} d cdata)
    as (text & Hdec & Hsave); simpl; try done.
  { apply is_dir_insert_other; [|done]. eapply dirs_kept_is_dir; [|done].
    intros q Hq. by apply Hkeep2. }
  { unfold fs3. rewrite lookup_insert_ne by done. by apply Hkeep2. }
  fold cp in Hsave. simpl in Hsave.
  eexists _, (walk_files d fs3). split_and!.
  - unfold add_file. mstep.
    assert (path_exists (disk w) file_path = true) as ->.
    { unfold path_exists, lookup_node. destruct file_path; [done | by rewrite Hsrc]. }
    simpl. rewrite Hm. simpl. unfold add_file_try. mstep. rewrite Hd.
    assert (match target with
            | Some (c :: t) => resolve d (c :: t)
            | _ => resolve d [name file_path]
            end = d ++ dest) as ->.
    { unfold dest, add_file_dest in *. destruct target as [[|c t]|]; by apply resolve_valid. }
    rewrite (parent_app _ _ Hdne). fold upper.
    unfold fs_write at 1. simpl. unfold makedirs. rewrite Hmk.
    unfold fs_write at 1. simpl. rewrite Hcopy. fold fs3.
    by rewrite Hsave.
  - done.
  - simpl. rewrite lookup_insert_ne by done. apply lookup_insert_eq.
  - intros rel c Hrel. simpl. rewrite lookup_insert_ne
      by (intros Heq; apply Hdcp; exists rel; exact Heq).
    unfold fs3. rewrite lookup_insert_ne by (intros Heq; by apply app_inv_head in Heq).
    apply Hfiles2.
  - simpl. apply (stored_archive_written cp key text); [|done | apply lookup_insert_eq].
    by destruct (fs_wf_lookup _ _ _ Hwf Hcp) as (? & _).
  - intros rel c. rewrite elem_of_walk_files. simpl.
    rewrite lookup_insert_ne by (intros Heq; apply Hdcp; exists rel; exact Heq). done.
Qed.


End Roundtrip.


End Fresh.

Lemma mount_already_mounted_eq key w :
  is_mounted (self w) = true →
  mount key w = (inl (Exn RuntimeError "Container is already mounted"), w).
Proof. intros Hm. unfold mount. munfold. by rewrite Hm. Qed.

(** C7: [mount] on a mounted object raises "Container is already mounted"
    and leaves the object, its working tree and the disk as they were. *)
Theorem mount_already_mounted key w :
  is_mounted (self w) = true →
  mount key w = (inl (Exn RuntimeError "Container is already mounted"), w).
Proof. intros Hm. unfold mount. munfold. by rewrite Hm. Qed.

(** C8: on an object that is not mounted, [save] and [list_files] raise
    "Container is not mounted" and change neither the disk nor the object. *)
Theorem save_list_files_not_mounted key w :
  is_mounted (self w) = false →
  save key w = (inl (Exn RuntimeError "Container is not mounted"), w)
  ∧ list_files w = (inl (Exn RuntimeError "Container is not mounted"), w).
Proof. intros Hm. unfold save, list_files. munfold. by rewrite Hm. Qed.

(** [unmount] returns whenever the working tree of a mounted object is not
    a regular file; a second call returns too and changes nothing. *)
Lemma unmount_returns w :
  (∀ d data, is_mounted (self w) = true → temp_dir (self w) = Some d →
     disk w !! d ≠ Some (File data)) →
  ∃ w', unmount w = (inr tt, w')
    ∧ unmount w' = (inr tt, w')
    ∧ is_mounted (self w') = false
    ∧ (is_mounted (self w) = false → w' = w)
    ∧ (is_mounted (self w) = true →
       temp_dir (self w') = None
       ∧ ∀ d, temp_dir (self w) = Some d →
           disk w' !! d = None ∧ (fs_wf (disk w) → d ≠ [] → no_tree d (disk w'))).
Proof.
  intros Hnf. destruct (is_mounted (self w)) eqn:Hm.
  2:{ exists w. rewrite unmount_not_mounted by done. split_and!; done. }
  destruct (temp_dir (self w)) as [d|] eqn:Hd.
  2:{ eexists. split; [unfold unmount; munfold; by rewrite Hm, Hd|].
      split; [by apply unmount_not_mounted|]. split_and!; done. }
  destruct (path_exists (disk w) d) eqn:Hex.
  - assert (is_dir (disk w) d = true) as Hdir.
    { unfold is_dir. unfold path_exists in Hex. specialize (Hnf d).
      unfold lookup_node in *. destruct d as [|c d]; [done|].
      destruct (disk w !! (c :: d)) as [[data|]|] eqn:E; [|done..].
      by destruct (Hnf data). }
    eexists. split; [by apply unmount_mounted|].
    split; [by apply unmount_not_mounted|]. split_and!; [done..|].
    intros _. split; [done|]. intros d' [= <-]. simpl.
    assert (no_tree d (filter (λ kv, ¬ d `prefix_of` kv.1) (disk w))) as Hnt.
    { eapply rmtree_no_tree. by apply rmtree_ok. }
    split; [|done]. specialize (Hnt []). by rewrite app_nil_r in Hnt.
  - eexists. split; [unfold unmount; munfold; rewrite Hm, Hd; simpl; by rewrite Hex|].
    split; [by apply unmount_not_mounted|]. split_and!; [done..|].
    intros _. split; [done|]. intros d' [= <-]. simpl.
    assert (disk w !! d = None) as Hnone.
    { unfold path_exists, lookup_node in Hex. destruct d; [done|].
      by destruct (disk w !! _). }
    split; [done|]. intros Hwf Hne. by apply fs_wf_no_tree.
Qed.

(** *** The working tree of a mounted object stays a directory *)

Lemma keeps_mounted_on_dir w w' : keeps w w' → mounted_on_dir w → mounted_on_dir w'.
Proof.
  intros [Hs Hk] Hinv Hm. rewrite Hs in Hm. destruct (Hinv Hm) as (d & Hd & Hdir).
  exists d. rewrite Hs. split; [done | by apply Hk].
Qed.

Lemma not_mounted_on_dir w : is_mounted (self w) = false → mounted_on_dir w.
Proof. intros Hm Hm'. congruence. Qed.

Lemma create_empty_keeps key w r w' : create_empty key w = (r, w') → keeps w w'.
Proof.
  unfold create_empty, NamedTemporaryFile. mstep.
  destruct (is_dir (disk w) tmpdir); [|intros [= <- <-]; apply keeps_refl].
  destruct (encrypt _ key); [intros [= <- <-]; apply keeps_refl|].
  apply fs_write_keeps. intros fs fs'. apply write_bytes_dirs_kept.
Qed.

Lemma list_files_same w r w' : list_files w = (r, w') → w' = w.
Proof.
  unfold list_files. mstep. destruct (is_mounted (self w)); simpl; [|by intros [= <- <-]].
  destruct (temp_dir (self w)); by intros [= <- <-].
Qed.

Lemma mount_raises_not_mounted key w e w' :
  is_mounted (self w) = false → mount key w = (inl e, w') → is_mounted (self w') = false.
Proof.
  intros Hm. rewrite mount_unfold by done. unfold try_except.
  destruct (mount_try (self w) key w) as [[e1|p] w1] eqn:E1; [|done].
  assert (is_mounted (self w1) = false) as Hm1.
  { apply mount_try_cases in E1 as [(e0 & _ & ->)|(_ & _ & _ & _ & Hr)]; [done|].
    destruct Hr as [[? _]|(e0 & _ & Hm1)]; [done | congruence]. }
  unfold mount_except. munfold.
  destruct (temp_dir (self w1)) as [d0|]; simpl; [|by intros [= <- <-]].
  destruct (path_exists (disk w1) d0); [|by intros [= <- <-]].
  destruct (rmtree d0 (disk w1)); by intros [= <- <-].
Qed.

Lemma mount_mounted_on_dir key w r w' :
  mount key w = (r, w') → mounted_on_dir w → mounted_on_dir w'.
Proof.
  intros Hmount Hinv. destruct (is_mounted (self w)) eqn:Hm.
  { rewrite mount_already_mounted_eq in Hmount by done. by injection Hmount as <- <-. }
  destruct r as [e|p].
  - apply not_mounted_on_dir. by eapply mount_raises_not_mounted.
  - apply mount_returns in Hmount as (_ & Hs & _ & Hdir & _); [|done].
    intros _. eexists. rewrite Hs. simpl. split; [done|].
    apply is_dir_lookup; [apply mkdtemp_path_ne | done].
Qed.

Lemma unmount_mounted_on_dir w r w' :
  unmount w = (r, w') → mounted_on_dir w → mounted_on_dir w'.
Proof.
  intros Hun Hinv. destruct (is_mounted (self w)) eqn:Hm.
  - destruct (Hinv Hm) as (d & Hd & Hdir).
    assert (is_dir (disk w) d = true) as Hdir'.
    { unfold is_dir, lookup_node. destruct d; [done | by rewrite Hdir]. }
    rewrite (unmount_mounted w d) in Hun by done. injection Hun as <- <-.
    by apply not_mounted_on_dir.
  - rewrite unmount_not_mounted in Hun by done. injection Hun as <- <-.
    by apply not_mounted_on_dir.
Qed.

Lemma add_file_mounted_on_dir file_path key target w r w' :
  add_file file_path key target w = (r, w') → mounted_on_dir w → mounted_on_dir w'.
Proof.
  intros Hadd Hinv. revert Hadd. unfold add_file. mstep.
  destruct (path_exists (disk w) file_path); simpl; [|by intros [= <- <-]].
  destruct (is_mounted (self w)) eqn:Hm; simpl.
  - destruct (add_file_try file_path key target w) as [r1 w1] eqn:E1.
    intros [= <- <-]. eapply keeps_mounted_on_dir; [by eapply add_file_try_keeps | done].
  - destruct (mount key w) as [[e|p] w1] eqn:E1.
    { intros [= <- <-]. apply not_mounted_on_dir. by eapply mount_raises_not_mounted. }
    apply mount_returns in E1 as (-> & Hs1 & _ & Hd1 & _); [|done].
    destruct (add_file_try file_path key target w1) as [r2 w2] eqn:E2.
    apply add_file_try_keeps in E2 as [Hs2 Hk2].
    rewrite (unmount_mounted w2 (mkdtemp_path "zero_file_share_" (disk w)));
      [| by rewrite Hs2, Hs1.. | by eapply dirs_kept_is_dir].
    intros [= <- <-]. by apply not_mounted_on_dir.
Qed.

Lemma edit_tree_put_mounted_on_dir rel data w :
  mounted_on_dir w →
  mounted_on_dir (edit_tree (λ d, write_bytes (d ++ rel) data) w).2.
Proof.
  intros Hinv. unfold edit_tree. mstep.
  destruct (temp_dir (self w)) as [d|]; [|done].
  destruct (is_mounted (self w)); [|done].
  destruct (fs_write (write_bytes (d ++ rel) data) w) as [r w'] eqn:E. simpl.
  eapply keeps_mounted_on_dir; [|done].
  eapply fs_write_keeps, E. intros fs fs'. apply write_bytes_dirs_kept.
Qed.

Lemma edit_tree_remove_mounted_on_dir rel w :
  mounted_on_dir w → mounted_on_dir (edit_tree (λ d, remove_below d rel) w).2.
Proof.
  intros Hinv. unfold edit_tree. mstep.
  destruct (temp_dir (self w)) as [d|] eqn:Hd; [|done].
  destruct (is_mounted (self w)) eqn:Hm; [|done].
  unfold fs_write, remove_below. destruct rel as [|c rel]; [by destruct w|]. simpl.
  intros _. exists d. split; [done|]. destruct (Hinv Hm) as (d' & Hd' & Hdir).
  assert (d' = d) as -> by congruence.
  apply map_lookup_filter_Some. split; [done|]. simpl.
  intros [k Hk]. apply (f_equal length) in Hk. rewrite !length_app in Hk. simpl in Hk. lia.
Qed.

Lemma run_call_mounted_on_dir c w : mounted_on_dir w → mounted_on_dir (run_call c w).
Proof.
  intros Hinv. destruct c as [key|key|key| |file_path key target| |rel data|rel]; simpl.
  - destruct (create_empty key w) as [r w'] eqn:E. simpl.
    eapply keeps_mounted_on_dir; [by eapply create_empty_keeps | done].
  - destruct (mount key w) as [r w'] eqn:E. simpl. by eapply mount_mounted_on_dir.
  - destruct (save key w) as [r w'] eqn:E. simpl.
    eapply keeps_mounted_on_dir; [by eapply save_keeps | done].
  - destruct (unmount w) as [r w'] eqn:E. simpl. by eapply unmount_mounted_on_dir.
  - destruct (add_file file_path key target w) as [r w'] eqn:E. simpl.
    by eapply add_file_mounted_on_dir.
  - destruct (list_files w) as [r w'] eqn:E. simpl.
    by rewrite (list_files_same _ _ _ E).
  - by apply edit_tree_put_mounted_on_dir.
  - by apply edit_tree_remove_mounted_on_dir.
Qed.

Lemma run_calls_mounted_on_dir calls w : mounted_on_dir w → mounted_on_dir (run_calls calls w).
Proof.
  revert w. induction calls as [|c calls IH]; intros w Hinv; simpl; [done|].
  by apply IH, run_call_mounted_on_dir.
Qed.


(** C5, as the code has it: the [init] command refuses a path that exists,
    with exit status 1, before it asks for a key and without calling
    [create_empty]; the disk is left as it was. *)
Theorem init_container_existing p key confirm_key fs :
  path_exists fs p = true →
  init_container p key confirm_key fs = (SysExit 1, fs).
Proof. intros Hex. unfold init_container. by rewrite Hex. Qed.

(** ** The mount command *)

Section Editing.

Context {editor : Editor}.

(** [mkdtemp] returns a name that did not exist. *)
Hypothesis mktemp_fresh : ∀ pre fs, fs !! mkdtemp_path pre fs = None.





End Editing.

(** ** Further properties without hypotheses on the platform *)

(** X4: after [mount] on an object that was not mounted, [get_mount_path]
    returns the path that [mount] returned, and it returns [None] when
    [mount] raised, also when the object still records the directory that
    was allocated and removed. *)
Theorem get_mount_path_after_mount key w r w' :
  is_mounted (self w) = false → mount key w = (r, w') →
  get_mount_path w' = (inr (match r with inr p => Some p | inl _ => None end), w').
Proof.
  intros Hm Hmount. unfold get_mount_path. mstep. destruct r as [e|p].
  - by rewrite (mount_raises_not_mounted _ _ _ _ Hm Hmount).
  - apply mount_returns in Hmount as (-> & -> & _); done.
Qed.



Lemma run_call_container_path c w :
  container_path (self (run_call c w)) = container_path (self w).
Proof.
  destruct c as [key|key|key| |file_path key target| |rel data|rel]; simpl.
  - destruct (create_empty key w) as [r w'] eqn:E. simpl.
    by apply create_empty_keeps in E as [-> _].
  - destruct (mount key w) as [r w'] eqn:E. simpl. by eapply mount_container_path.
  - destruct (save key w) as [r w'] eqn:E. simpl. by apply save_keeps in E as [-> _].
  - destruct (unmount w) as [r w'] eqn:E. simpl. by eapply unmount_container_path.
  - destruct (add_file file_path key target w) as [r w'] eqn:E. simpl.
    by eapply add_file_container_path.
  - destruct (list_files w) as [r w'] eqn:E. simpl. by rewrite (list_files_same _ _ _ E).
  - unfold edit_tree. mstep. destruct (temp_dir (self w)) as [d|]; [|done].
    destruct (is_mounted (self w)); [|done]. unfold fs_write.
    by destruct (write_bytes (d ++ rel) data (disk w)).
  - unfold edit_tree. mstep. destruct (temp_dir (self w)) as [d|]; [|done].
    destruct (is_mounted (self w)); [|done]. unfold fs_write.
    by destruct (remove_below d rel (disk w)).
Qed.

(** X14: what every sequence of method calls and edits inside the working
    tree keeps, from a new object on any disk: the container path is the
    one the object was made with, and whenever the object is mounted its
    working tree is recorded and is a directory on the disk. *)
Theorem calls_keep_object_in_order (container : path) (fs : FS) (calls : list call) :
  let w := run_calls calls {| self := new_SecureContainer container; disk := fs |} in
  container_path (self w) = container
  ∧ (is_mounted (self w) = true →
     ∃ d, temp_dir (self w) = Some d ∧ disk w !! d = Some Dir
          ∧ get_mount_path w = (inr (Some d), w)).
Proof.
  intros w.
  assert (∀ w0, container_path (self (run_calls calls w0)) = container_path (self w0))
    as Hcp.
  { induction calls as [|c calls IH]; intros w0; simpl; [done|].
    by rewrite IH, run_call_container_path. }
  split; [exact (Hcp _)|]. intros Hm.
  assert (mounted_on_dir w) as Hinv.
  { apply run_calls_mounted_on_dir, not_mounted_on_dir. done. }
  destruct (Hinv Hm) as (d & Hd & Hdir). exists d. split_and!; [done..|].
  unfold get_mount_path. mstep. by rewrite Hm, Hd.
Qed.




End Lifecycle.

(** ** Runs on the sample platform *)

#[local] Existing Instance sample_tempfiles.
#[local] Existing Instance sample_cipher.
#[local] Existing Instance sample_archive.

Lemma length_append (a b : string) :
  String.length (a +:+ b) = String.length a + String.length b.
Proof. induction a as [|c a IH]; simpl; [done | by rewrite IH]. Qed.

Lemma length_xs n : String.length (xs n) = n.
Proof. induction n as [|n IH]; simpl; [done | by rewrite IH]. Qed.

Lemma longest_name_le (fs : FS) (q : path) (n : node) (c : string) :
  fs !! q = Some n → c ∈ q → (String.length c ≤ longest_name fs)%nat.
Proof.
  intros Hq Hc. unfold longest_name. apply max_list_elem_of_le.
  apply list_elem_of_fmap. exists c. split; [done|].
  apply list_elem_of_In, in_concat. exists q. split; [|by apply list_elem_of_In].
  apply list_elem_of_In, list_elem_of_fmap. exists (q, n).
  split; [done | by apply elem_of_map_to_list].
Qed.

Lemma sample_mktemp_fresh (pre : string) (fs : FS) : fs !! mkdtemp_path pre fs = None.
Proof.
  destruct (fs !! mkdtemp_path pre fs) as [n|] eqn:E; [exfalso | done].
  eapply (longest_name_le _ _ _ (pre +:+ xs (S (longest_name fs)))) in E.
  - rewrite length_append, length_xs in E. lia.
  - unfold mkdtemp_path. simpl. set_solver.
Qed.

Lemma strip_key_append key text : strip_key key (key +:+ text) = Some text.
Proof. induction key as [|a key IH]; simpl; [done | by rewrite Ascii.eqb_refl]. Qed.

Lemma sample_cipher_roundtrip (data : bytes) (key : string) :
  ∃ text, encrypt data key = inr text ∧ decrypt text key = inr data.
Proof.
  eexists. split; [reflexivity|]. simpl.
  by rewrite strip_key_append, list_byte_of_string_of_list_byte.
Qed.

Lemma pos_of_bits_of_pos n : pos_of_bits (bits_of_pos n) = Some n.
Proof. induction n as [n IH|n IH|]; simpl; [by rewrite IH.. | done]. Qed.

Lemma sample_tar_roundtrip (members : list (path * bytes)) :
  tar_read (tar_write members) = inr members.
Proof.
  simpl. rewrite pos_of_bits_of_pos. simpl. rewrite decode_encode. f_equal.
  rewrite <- list_fmap_compose. rewrite <- (list_fmap_id members) at 2.
  apply list_fmap_ext. intros i [rel data] _. simpl.
  by rewrite list_byte_of_string_of_list_byte.
Qed.

Ltac by_compute := vm_compute; reflexivity.
Ltac decided :=
  match goal with |- ?P => apply (bool_decide_eq_true_1 P); by_compute end.
Ltac refuted :=
  match goal with |- ¬ ?P => apply (bool_decide_eq_false_1 P); by_compute end.








(** C5 as stated fails: [create_empty] on the path of a container that
    holds a file returns normally and leaves an empty container there. *)
Lemma create_empty_overwrites :
  let w := fresh_world (disk_with inside_members) in
  path_exists (disk w) vault = true
  ∧ create_empty "pw" w = (inr tt, fresh_world (disk_with []))
  ∧ disk_with [] !! vault ≠ disk w !! vault.
Proof.
  intros w. split; [by_compute|]. split; [by_compute|]. vm_compute. discriminate.
Qed.

Lemma init_container_existing_witness :
  path_exists (disk_with inside_members) vault = true
  ∧ init_container vault "pw" "pw" (disk_with inside_members)
    = (SysExit 1, disk_with inside_members).
Proof.
  split; [by_compute|]. apply init_container_existing. by_compute.
Defined.

Lemma end_to_end_round_trip_witness :
  ∃ w', end_to_end "pw" "notes.txt" (list_byte_of_string "hello")
          {| self := new_SecureContainer vault; disk := sample_disk |}
        = (inr ([], ["notes.txt"], list_byte_of_string "hello"), w').
Proof.
  apply (end_to_end_round_trip sample_mktemp_fresh sample_cipher_roundtrip
           sample_tar_roundtrip);
    [decided | by_compute | decided | done | decided | by_compute
    | vm_compute; discriminate].
Defined.


Lemma tree_disk_empty_directory r data' :
  tree_disk !! (["tmp"; "wt"] ++ ["empty"] ++ r) ≠ Some (File data').
Proof.
  intros Hf. apply elem_of_map_to_list in Hf. vm_compute map_to_list in Hf.
  repeat (apply elem_of_cons in Hf as [Hf|Hf]; [discriminate Hf|]).
  by apply not_elem_of_nil in Hf.
Qed.

Lemma empty_directories_dropped_witness :
  let w := mounted_world ["tmp"; "wt"] tree_disk in
  ∃ w1 members w2 d' w',
    save "pw" w = (inr tt, w1)
    ∧ stored_archive vault "pw" (disk w1) = Some members
    ∧ (∀ m, m ∈ members ↔ m.1 ≠ [] ∧ disk w !! (["tmp"; "wt"] ++ m.1) = Some (File m.2))
    ∧ (∀ m, m ∈ members → ¬ ["empty"] `prefix_of` m.1)
    ∧ unmount w1 = (inr tt, w2)
    ∧ mount "pw" w2 = (inr d', w')
    ∧ is_mounted (self w') = true ∧ temp_dir (self w') = Some d'
    ∧ disk w' !! (d' ++ ["empty"]) = None.
Proof.
  intros w.
  apply (empty_directories_dropped sample_mktemp_fresh sample_cipher_roundtrip
           sample_tar_roundtrip "pw" w ["tmp"; "wt"] (sealed [] "pw") ["empty"]);
    [decided | by_compute | by_compute | by_compute | by_compute | refuted | refuted
    | by_compute | done | by_compute | apply tree_disk_empty_directory].
Defined.

Lemma mount_already_mounted_witness :
  is_mounted (self (mounted_world ["tmp"; "wt"] sample_disk)) = true
  ∧ mount "pw" (mounted_world ["tmp"; "wt"] sample_disk) =
      (inl (Exn RuntimeError "Container is already mounted"),
       mounted_world ["tmp"; "wt"] sample_disk).
Proof. split; [reflexivity | apply mount_already_mounted; reflexivity]. Defined.

Lemma save_list_files_not_mounted_witness :
  is_mounted (self (fresh_world (disk_with []))) = false
  ∧ save "pw" (fresh_world (disk_with [])) =
      (inl (Exn RuntimeError "Container is not mounted"), fresh_world (disk_with []))
  ∧ list_files (fresh_world (disk_with [])) =
      (inl (Exn RuntimeError "Container is not mounted"), fresh_world (disk_with [])).
Proof. split; [reflexivity | apply save_list_files_not_mounted; reflexivity]. Defined.


(** ** Further runs on the sample platform *)

#[local] Existing Instance sample_editor.



Lemma inside_members_consistent : consistent inside_members.
Proof.
  intros m m' Hm%list_elem_of_singleton Hm'%list_elem_of_singleton _. congruence.
Qed.



Lemma list_files_sorted_complete_witness :
  let w := mounted_world ["tmp"; "wt"] tree_disk in
  list_files w = (inr ["a.txt"], w)
  ∧ ∃ l, list_files w = (inr l, w)
      ∧ Sorted str_le l
      ∧ ∀ s, s ∈ l ↔ ∃ rel data,
          rel ≠ [] ∧ disk w !! (["tmp"; "wt"] ++ rel) = Some (File data) ∧ s = str_rel rel.
Proof.
  intros w. split; [by_compute|].
  apply (list_files_sorted_complete w ["tmp"; "wt"]); by_compute.
Defined.

Lemma get_mount_path_after_mount_witness :
  let w := fresh_world (disk_with inside_members) in
  let w' := (mount "pw" w).2 in
  mount "pw" w = (inr ["tmp"; "zero_file_share_xxxxxxxxxx"], w')
  ∧ get_mount_path w' = (inr (Some ["tmp"; "zero_file_share_xxxxxxxxxx"]), w').
Proof.
  intros w w'.
  assert (mount "pw" w = (inr ["tmp"; "zero_file_share_xxxxxxxxxx"], w')) as H by by_compute.
  split; [exact H|].
  exact (get_mount_path_after_mount "pw" w (inr ["tmp"; "zero_file_share_xxxxxxxxxx"]) w'
           eq_refl H).
Defined.

Lemma save_remount_round_trip_witness :
  let w := mounted_world ["tmp"; "wt"] tree_disk in
  ∃ w1 w2 d' w',
    save "pw" w = (inr tt, w1)
    ∧ unmount w1 = (inr tt, w2)
    ∧ mount "pw" w2 = (inr d', w')
    ∧ is_mounted (self w') = true ∧ temp_dir (self w') = Some d'
    ∧ (∀ rel c, rel ≠ [] →
         disk w' !! (d' ++ rel) = Some (File c)
         ↔ disk w !! (["tmp"; "wt"] ++ rel) = Some (File c))
    ∧ (∀ rel, rel ≠ [] →
         disk w' !! (d' ++ rel) = Some Dir
         ↔ ∃ r c, r ≠ [] ∧ disk w !! (["tmp"; "wt"] ++ rel ++ r) = Some (File c)).
Proof.
  intros w.
  apply (save_remount_round_trip sample_mktemp_fresh sample_cipher_roundtrip
           sample_tar_roundtrip "pw" w ["tmp"; "wt"] (sealed [] "pw"));
    [decided | by_compute | by_compute | by_compute | by_compute | refuted | refuted
    | by_compute].
Defined.

Lemma mount_materialises_archive_witness :
  let w := fresh_world (disk_with inside_members) in
  let d := mkdtemp_path "zero_file_share_" (disk w) in
  ∃ w', mount "pw" w = (inr d, w')
    ∧ self w' = {| container_path := container_path (self w);
                   temp_dir := Some d; is_mounted := true |}
    ∧ disk w' !! d = Some Dir
    ∧ (∀ rel c, rel ≠ [] →
         disk w' !! (d ++ rel) = Some (File c) ↔ (rel, c) ∈ inside_members)
    ∧ same_outside d (disk w) (disk w').
Proof.
  intros w d.
  apply (mount_materialises_archive sample_mktemp_fresh "pw" w inside_members);
    [decided | by_compute | by_compute | by_compute | apply inside_members_consistent
    | decided].
Defined.

Lemma notes_free_of_members (m : path * bytes) :
  m ∈ inside_members →
  m.1 `prefix_of` ["notes.txt"] ∨ ["notes.txt"] `prefix_of` m.1 → m.1 = ["notes.txt"].
Proof.
  intros ->%list_elem_of_singleton. simpl. intros [[k Hk]|[k Hk]]; discriminate Hk.
Qed.

Lemma add_file_then_mount_witness :
  let w := fresh_world (disk_with inside_members) in
  ∃ w1 d' w2,
    add_file ["home"; "notes.txt"] "pw" None w = (inr tt, w1)
    ∧ is_mounted (self w1) = false ∧ temp_dir (self w1) = None
    ∧ mount "pw" w1 = (inr d', w2)
    ∧ disk w2 !! (d' ++ ["notes.txt"]) = Some (File (list_byte_of_string "hello"))
    ∧ (∀ rel c, rel ≠ [] → rel ≠ ["notes.txt"] →
         disk w2 !! (d' ++ rel) = Some (File c) ↔ (rel, c) ∈ inside_members).
Proof.
  intros w.
  apply (add_file_then_mount sample_mktemp_fresh sample_cipher_roundtrip
           sample_tar_roundtrip ["home"; "notes.txt"] "pw" None w inside_members
           (list_byte_of_string "hello"));
    [decided | by_compute | by_compute | by_compute | apply inside_members_consistent
    | decided | by_compute | decided | apply notes_free_of_members].
Defined.

Lemma add_file_mounted_witness :
  let w := mounted_world ["tmp"; "wt"] tree_disk in
  ∃ w' ms,
    add_file ["home"; "notes.txt"] "pw" (Some ["empty"; "n.txt"]) w = (inr tt, w')
    ∧ self w' = self w
    ∧ disk w' !! (["tmp"; "wt"] ++ ["empty"; "n.txt"])
      = Some (File (list_byte_of_string "hello"))
    ∧ (∀ rel c, rel ≠ ["empty"; "n.txt"] →
         disk w' !! (["tmp"; "wt"] ++ rel) = Some (File c)
         ↔ disk w !! (["tmp"; "wt"] ++ rel) = Some (File c))
    ∧ stored_archive (container_path (self w)) "pw" (disk w') = Some ms
    ∧ (∀ rel c, (rel, c) ∈ ms
         ↔ rel ≠ [] ∧ disk w' !! (["tmp"; "wt"] ++ rel) = Some (File c)).
Proof.
  intros w.
  apply (add_file_mounted sample_cipher_roundtrip
           sample_tar_roundtrip ["home"; "notes.txt"] "pw" (Some ["empty"; "n.txt"])
           w ["tmp"; "wt"] (list_byte_of_string "hello") (sealed [] "pw"));
    [decided | by_compute | by_compute | by_compute | by_compute | by_compute | refuted
    | by_compute | done | decided | | vm_compute; discriminate].
  intros r c Hr [k Hk]. simpl in Hk.
  destruct r as [|a [|b r]]; [done | | discriminate Hk].
  injection Hk as <- _. vm_compute. discriminate.
Defined.



Lemma cli_add_file_then_mount_witness :
  ∃ fs' d' w2,
    Cli.add_file vault ["home"; "notes.txt"] None "pw" (disk_with inside_members)
      = (Returned, fs')
    ∧ mount "pw" {| self := new_SecureContainer vault; disk := fs' |} = (inr d', w2)
    ∧ disk w2 !! (d' ++ ["notes.txt"]) = Some (File (list_byte_of_string "hello"))
    ∧ (∀ rel c, rel ≠ [] → rel ≠ ["notes.txt"] →
         disk w2 !! (d' ++ rel) = Some (File c) ↔ (rel, c) ∈ inside_members).
Proof.
  apply (cli_add_file_then_mount sample_mktemp_fresh sample_cipher_roundtrip
           sample_tar_roundtrip vault ["home"; "notes.txt"] None "pw"
           (disk_with inside_members) inside_members (list_byte_of_string "hello"));
    [decided | by_compute | by_compute | apply inside_members_consistent
    | decided | by_compute | decided | apply notes_free_of_members].
Defined.





Lemma calls_keep_object_in_order_witness :
  let calls := [Mount "pw"; PutFile ["n.txt"] (list_byte_of_string "hi"); Save "pw"] in
  let w := run_calls calls
             {| self := new_SecureContainer vault; disk := disk_with inside_members |} in
  is_mounted (self w) = true
  ∧ container_path (self w) = vault
  ∧ (is_mounted (self w) = true →
     ∃ d, temp_dir (self w) = Some d ∧ disk w !! d = Some Dir
          ∧ get_mount_path w = (inr (Some d), w)).
Proof.
  intros calls w. split; [by_compute|].
  exact (calls_keep_object_in_order vault (disk_with inside_members) calls).
Defined.
